(** * RedBlackTree.cpp: a pointer-linked red-black tree with parent
      back-references, embedded over an explicit heap.

    The C++ nodes live on the free store and are linked by raw pointers
    ([left], [right], [parent]).  The embedding keeps that shape: a heap
    maps addresses to node records, a pointer is an optional address
    ([None] is [nullptr]), and every member function is a computation
    in a small state-and-error monad that reads and writes the heap one
    field access at a time, in the order of the source.

    The development has four parts: the member functions; the shapes a
    heap can hold and the vocabulary of the statements; the lemmas, which
    run the functions on heaps that hold a shape; and the claims on the
    behaviour of the class, each with an example. *)

From stdpp Require Import gmap strings list fin_maps pretty sorting.
From Stdlib Require Import ZArith Lia.

Open Scope Z_scope.

(** ** Data model *)

(** The two colours the source uses ([COLOR_RED], [COLOR_BLACK]). *)
Inductive Color := COLOR_RED | COLOR_BLACK.

Global Instance Color_eq_dec : EqDecision Color.
Proof. solve_decision. Defined.

Definition addr := nat.
Definition ptr := option addr.

(** [RBTNode] is declared in RedBlackTree.h; the fields are the ones the
    source file reads and writes.  Keys are C++ [int]s: the source only
    compares and prints them, so they are kept as integers. *)
Record RBTNode := mkNode {
  data : Z;
  color : Color;
  left : ptr;
  right : ptr;
  parent : ptr;
  IsNullNode : bool
}.

(** [new RBTNode()] value-initialises the node: null links. *)
Definition RBTNode_init : RBTNode :=
  mkNode 0 COLOR_RED None None None false.

Definition set_data (v : Z) (n : RBTNode) : RBTNode :=
  mkNode v (color n) (left n) (right n) (parent n) (IsNullNode n).
Definition set_color (v : Color) (n : RBTNode) : RBTNode :=
  mkNode (data n) v (left n) (right n) (parent n) (IsNullNode n).
Definition set_left (v : ptr) (n : RBTNode) : RBTNode :=
  mkNode (data n) (color n) v (right n) (parent n) (IsNullNode n).
Definition set_right (v : ptr) (n : RBTNode) : RBTNode :=
  mkNode (data n) (color n) (left n) v (parent n) (IsNullNode n).
Definition set_parent (v : ptr) (n : RBTNode) : RBTNode :=
  mkNode (data n) (color n) (left n) (right n) v (IsNullNode n).
Definition set_IsNullNode (v : bool) (n : RBTNode) : RBTNode :=
  mkNode (data n) (color n) (left n) (right n) (parent n) v.

(** The members of a [RedBlackTree] object.  [numItems] is declared in
    the header; it is kept as an unbounded natural number. *)
Record RedBlackTree := mkTree {
  root : ptr;
  numItems : N
}.

(** The free store together with the object a member function runs on. *)
Record state := mkState {
  mem : gmap addr RBTNode;
  this : RedBlackTree
}.

Definition with_mem (h : gmap addr RBTNode) (s : state) : state :=
  mkState h (this s).
Definition with_this (t : RedBlackTree) (s : state) : state :=
  mkState (mem s) t.

(** ** The monad of member functions

    [Throw] is a C++ exception leaving the function (it carries the state
    at the throw), [Fault] is a dereference of a null or dangling
    pointer, [OutOfFuel] is a loop or recursion cut short by the model. *)
Inductive outcome (A : Type) :=
  | Ok (a : A) (s : state)
  | Throw (what : string) (s : state)
  | Fault
  | OutOfFuel.
Global Arguments Ok {A} a s.
Global Arguments Throw {A} what s.
Global Arguments Fault {A}.
Global Arguments OutOfFuel {A}.

Definition M (A : Type) : Type := state → outcome A.

Definition ret {A} (a : A) : M A := λ s, Ok a s.
Definition bind {A B} (m : M A) (k : A → M B) : M B := λ s,
  match m s with
  | Ok a s' => k a s'
  | Throw w s' => Throw w s'
  | Fault => Fault
  | OutOfFuel => OutOfFuel
  end.
Definition throw {A} (what : string) : M A := λ s, Throw what s.
Definition out_of_fuel {A} : M A := λ _, OutOfFuel.

Notation "'let*' x ':=' m 'in' k" := (bind m (λ x, k))
  (at level 10, x name, m at level 100, k at level 200).
Notation "m ';;;' k" := (bind m (λ _, k))
  (at level 100, k at level 200, right associativity).

(** [p->f] *)
Definition get {A} (f : RBTNode → A) (p : ptr) : M A := λ s,
  match p with
  | Some a => match mem s !! a with Some n => Ok (f n) s | None => Fault end
  | None => Fault
  end.

(** [p->f = v], with [upd] the setter of the field *)
Definition put {A} (upd : A → RBTNode → RBTNode) (p : ptr) (v : A) : M unit := λ s,
  match p with
  | Some a =>
      match mem s !! a with
      | Some n => Ok tt (with_mem (<[a := upd v n]> (mem s)) s)
      | None => Fault
      end
  | None => Fault
  end.

(** [new RBTNode()] *)
Definition new_RBTNode : M ptr := λ s,
  let a := fresh (dom (mem s)) in
  Ok (Some a) (with_mem (<[a := RBTNode_init]> (mem s)) s).

Definition get_root : M ptr := λ s, Ok (root (this s)) s.
Definition set_root (p : ptr) : M unit := λ s,
  Ok tt (with_this (mkTree p (numItems (this s))) s).
Definition get_numItems : M N := λ s, Ok (numItems (this s)) s.
Definition set_numItems (n : N) : M unit := λ s,
  Ok tt (with_this (mkTree (root (this s)) n) s).

(** ** The member functions, in the order of the source *)

(** RedBlackTree::RedBlackTree() *)
Definition RedBlackTree_default : M unit :=
  set_root None ;;;
  set_numItems 0.

(** RedBlackTree::RedBlackTree(int newData) *)
Definition RedBlackTree_single (newData : Z) : M unit :=
  (let* p := new_RBTNode in set_root p) ;;;
  (let* r := get_root in put set_data r newData) ;;;
  (let* r := get_root in put set_color r COLOR_BLACK) ;;;
  set_numItems 1.

(** RedBlackTree::IsLeftChild *)
Definition IsLeftChild (node : ptr) : M bool :=
  let* p := get parent node in
  match p with
  | None => ret false
  | Some _ =>
      let* l := get left p in
      ret (bool_decide (l = node))
  end.

(** RedBlackTree::IsRightChild *)
Definition IsRightChild (node : ptr) : M bool :=
  let* p := get parent node in
  match p with
  | None => ret false
  | Some _ =>
      let* r := get right p in
      ret (bool_decide (r = node))
  end.

(** RedBlackTree::GetUncle *)
Definition GetUncle (node : ptr) : M ptr :=
  let* p := get parent node in
  match p with
  | None => ret None
  | Some _ =>
      let* g := get parent p in
      match g with
      | None => ret None
      | Some _ =>
          let* p := get parent node in
          let* isl := IsLeftChild p in
          let* p := get parent node in
          let* g := get parent p in
          if isl then get right g else get left g
      end
  end.

(** RedBlackTree::LeftRotate *)
Definition LeftRotate (node : ptr) : M unit :=
  let* r := get right node in
  (let* rl := get left r in put set_right node rl) ;;;
  (let* rl := get left r in
   match rl with
   | Some _ => put set_parent rl node
   | None => ret tt
   end) ;;;
  (let* p := get parent node in put set_parent r p) ;;;
  (let* p := get parent node in
   match p with
   | None => set_root r
   | Some _ =>
       let* isl := IsLeftChild node in
       let* p := get parent node in
       if isl then put set_left p r else put set_right p r
   end) ;;;
  put set_left r node ;;;
  put set_parent node r.

(** RedBlackTree::RightRotate *)
Definition RightRotate (node : ptr) : M unit :=
  let* l := get left node in
  (let* lr := get right l in put set_left node lr) ;;;
  (let* lr := get right l in
   match lr with
   | Some _ => put set_parent lr node
   | None => ret tt
   end) ;;;
  (let* p := get parent node in put set_parent l p) ;;;
  (let* p := get parent node in
   match p with
   | None => set_root l
   | Some _ =>
       let* isr := IsRightChild node in
       let* p := get parent node in
       if isr then put set_right p l else put set_left p l
   end) ;;;
  put set_right l node ;;;
  put set_parent node l.

(** RedBlackTree::Get; the [while] loop takes one unit of fuel per node
    visited. *)
Fixpoint Get_loop (fuel : nat) (d : Z) (curr : ptr) : M ptr :=
  match curr with
  | None => ret None
  | Some _ =>
      match fuel with
      | O => out_of_fuel
      | S fuel' =>
          let* cd := get data curr in
          if bool_decide (d = cd) then ret curr
          else
            let* cd := get data curr in
            if bool_decide (d < cd)
            then let* c := get left curr in Get_loop fuel' d c
            else let* c := get right curr in Get_loop fuel' d c
      end
  end.

Definition Get (fuel : nat) (d : Z) : M ptr :=
  let* r := get_root in Get_loop fuel d r.

(** RedBlackTree::Contains *)
Definition Contains (fuel : nat) (d : Z) : M bool :=
  let* p := Get fuel d in
  ret (bool_decide (p ≠ None)).

(** RedBlackTree::BasicInsert *)
Fixpoint BasicInsert_loop (fuel : nat) (node curr prev : ptr) : M ptr :=
  match curr with
  | None => ret prev
  | Some _ =>
      match fuel with
      | O => out_of_fuel
      | S fuel' =>
          let* nd := get data node in
          let* cd := get data curr in
          if bool_decide (nd < cd)
          then let* c := get left curr in BasicInsert_loop fuel' node c curr
          else let* c := get right curr in BasicInsert_loop fuel' node c curr
      end
  end.

Definition BasicInsert (fuel : nat) (node : ptr) : M unit :=
  let* r := get_root in
  let* prev := BasicInsert_loop fuel node r None in
  put set_parent node prev ;;;
  let* nd := get data node in
  let* pd := get data prev in
  if bool_decide (nd < pd)
  then put set_left prev node
  else put set_right prev node.

(** [uncle != nullptr && uncle->color == COLOR_RED] *)
Definition uncle_is_red (uncle : ptr) : M bool :=
  match uncle with
  | None => ret false
  | Some _ => let* c := get color uncle in ret (bool_decide (c = COLOR_RED))
  end.

(** The body shared by the "uncle is red" arms of RedBlackTree::InsertFixUp;
    it returns the new [node]. *)
Definition recolor_and_ascend (node uncle : ptr) : M ptr :=
  (let* p := get parent node in put set_color p COLOR_BLACK) ;;;
  put set_color uncle COLOR_BLACK ;;;
  (let* p := get parent node in
   let* g := get parent p in
   put set_color g COLOR_RED) ;;;
  let* p := get parent node in
  get parent p.

(** RedBlackTree::InsertFixUp, the [while] loop: one unit of fuel per
    evaluation of the loop condition. *)
Fixpoint InsertFixUp_loop (fuel : nat) (node : ptr) : M unit :=
  match fuel with
  | O => out_of_fuel
  | S fuel' =>
      let* r := get_root in
      if bool_decide (node = r) then ret tt
      else
        let* p := get parent node in
        let* pc := get color p in
        if bool_decide (pc = COLOR_RED) then
          let* p := get parent node in
          let* isl := IsLeftChild p in
          if isl then
            let* uncle := GetUncle node in
            let* ured := uncle_is_red uncle in
            if ured then
              let* node := recolor_and_ascend node uncle in
              InsertFixUp_loop fuel' node
            else
              let* isr := IsRightChild node in
              let* node :=
                (if isr
                 then let* p := get parent node in LeftRotate p ;;; ret p
                 else ret node) in
              (let* p := get parent node in put set_color p COLOR_BLACK) ;;;
              (let* p := get parent node in
               let* g := get parent p in
               put set_color g COLOR_RED) ;;;
              (let* p := get parent node in
               let* g := get parent p in
               RightRotate g) ;;;
              InsertFixUp_loop fuel' node
          else
            let* uncle := GetUncle node in
            let* ured := uncle_is_red uncle in
            if ured then
              let* node := recolor_and_ascend node uncle in
              InsertFixUp_loop fuel' node
            else
              let* isl := IsLeftChild node in
              let* node :=
                (if isl
                 then let* p := get parent node in RightRotate p ;;; ret p
                 else ret node) in
              (let* p := get parent node in put set_color p COLOR_BLACK) ;;;
              (let* p := get parent node in
               let* g := get parent p in
               put set_color g COLOR_RED) ;;;
              (let* p := get parent node in
               let* g := get parent p in
               LeftRotate g) ;;;
              InsertFixUp_loop fuel' node
        else ret tt
  end.

Definition InsertFixUp (fuel : nat) (node : ptr) : M unit :=
  InsertFixUp_loop fuel node ;;;
  let* r := get_root in
  put set_color r COLOR_BLACK.

(** RedBlackTree::Insert *)
Definition Insert (fuel : nat) (newData : Z) : M unit :=
  let* r := get_root in
  match r with
  | None =>
      (let* p := new_RBTNode in set_root p) ;;;
      (let* r := get_root in put set_data r newData) ;;;
      (let* r := get_root in put set_color r COLOR_BLACK) ;;;
      (let* n := get_numItems in set_numItems (n + 1))
  | Some _ =>
      let* dup := Contains fuel newData in
      if dup then throw "Duplicate value."
      else
        let* newNode := new_RBTNode in
        put set_data newNode newData ;;;
        put set_color newNode COLOR_RED ;;;
        BasicInsert fuel newNode ;;;
        InsertFixUp fuel newNode ;;;
        (let* r := get_root in put set_color r COLOR_BLACK) ;;;
        (let* n := get_numItems in set_numItems (n + 1))
  end.

(** RedBlackTree::GetMin *)
Fixpoint GetMin_loop (fuel : nat) (curr : ptr) : M ptr :=
  let* l := get left curr in
  match l with
  | None => ret curr
  | Some _ =>
      match fuel with
      | O => out_of_fuel
      | S fuel' => GetMin_loop fuel' l
      end
  end.

Definition GetMin (fuel : nat) : M Z :=
  let* r := get_root in
  match r with
  | None => throw "Tree is empty."
  | Some _ =>
      let* curr := GetMin_loop fuel r in
      get data curr
  end.

(** RedBlackTree::GetMax *)
Fixpoint GetMax_loop (fuel : nat) (curr : ptr) : M ptr :=
  let* r := get right curr in
  match r with
  | None => ret curr
  | Some _ =>
      match fuel with
      | O => out_of_fuel
      | S fuel' => GetMax_loop fuel' r
      end
  end.

Definition GetMax (fuel : nat) : M Z :=
  let* r := get_root in
  match r with
  | None => throw "Tree is empty."
  | Some _ =>
      let* curr := GetMax_loop fuel r in
      get data curr
  end.

(** [std::to_string(int)] *)
Definition to_string (z : Z) : string := pretty z.

(** RedBlackTree::GetColorString *)
Definition GetColorString (n : ptr) : M string :=
  match n with
  | None => ret ""
  | Some _ =>
      let* c := get color n in
      ret (if bool_decide (c = COLOR_RED) then "R" else "B")
  end.

(** RedBlackTree::GetNodeString *)
Definition GetNodeString (n : ptr) : M string :=
  match n with
  | None => ret ""
  | Some _ =>
      let* cs := GetColorString n in
      let* d := get data n in
      ret (" " +:+ cs +:+ to_string d +:+ " ")
  end.

(** RedBlackTree::ToInfixString; one unit of fuel per level of recursion
    on a node. *)
Fixpoint ToInfixString (fuel : nat) (n : ptr) : M string :=
  match n with
  | None => ret ""
  | Some _ =>
      match fuel with
      | O => out_of_fuel
      | S fuel' =>
          let* l := get left n in
          let* ls := ToInfixString fuel' l in
          let* ns := GetNodeString n in
          let* r := get right n in
          let* rs := ToInfixString fuel' r in
          ret (ls +:+ ns +:+ rs)
      end
  end.

(** RedBlackTree::ToPrefixString *)
Fixpoint ToPrefixString (fuel : nat) (n : ptr) : M string :=
  match n with
  | None => ret ""
  | Some _ =>
      match fuel with
      | O => out_of_fuel
      | S fuel' =>
          let* ns := GetNodeString n in
          let* l := get left n in
          let* ls := ToPrefixString fuel' l in
          let* r := get right n in
          let* rs := ToPrefixString fuel' r in
          ret (ns +:+ ls +:+ rs)
      end
  end.

(** RedBlackTree::ToPostfixString *)
Fixpoint ToPostfixString (fuel : nat) (n : ptr) : M string :=
  match n with
  | None => ret ""
  | Some _ =>
      match fuel with
      | O => out_of_fuel
      | S fuel' =>
          let* l := get left n in
          let* ls := ToPostfixString fuel' l in
          let* r := get right n in
          let* rs := ToPostfixString fuel' r in
          let* ns := GetNodeString n in
          ret (ls +:+ rs +:+ ns)
      end
  end.

(** RedBlackTree::CopyOf *)
Fixpoint CopyOf (fuel : nat) (node : ptr) : M ptr :=
  match node with
  | None => ret None
  | Some _ =>
      match fuel with
      | O => out_of_fuel
      | S fuel' =>
          let* copy := new_RBTNode in
          (let* d := get data node in put set_data copy d) ;;;
          (let* c := get color node in put set_color copy c) ;;;
          (let* b := get IsNullNode node in put set_IsNullNode copy b) ;;;
          (let* l := get left node in
           let* cl := CopyOf fuel' l in
           put set_left copy cl) ;;;
          (let* r := get right node in
           let* cr := CopyOf fuel' r in
           put set_right copy cr) ;;;
          (let* cl := get left copy in
           match cl with
           | Some _ => put set_parent cl copy
           | None => ret tt
           end) ;;;
          (let* cr := get right copy in
           match cr with
           | Some _ => put set_parent cr copy
           | None => ret tt
           end) ;;;
          ret copy
      end
  end.

(** RedBlackTree::RedBlackTree(const RedBlackTree& rbt) *)
Definition RedBlackTree_copy (fuel : nat) (rbt : RedBlackTree) : M unit :=
  (let* p := CopyOf fuel (root rbt) in set_root p) ;;;
  set_numItems (numItems rbt).

(** * The shapes held by a heap, and what is said about them *)

(** ** Shapes *)

(** A [tree] records, for a region of the heap, which address holds which
    node: it is the picture of the pointer structure, not a second
    implementation. *)
Inductive tree :=
  | Leaf
  | Node (a : addr) (c : Color) (l : tree) (k : Z) (r : tree).

Definition ptr_of (t : tree) : ptr :=
  match t with
  | Leaf => None
  | Node a _ _ _ _ => Some a
  end.

(** [rep h par t]: the heap [h] holds the shape [t], whose top node has
    [par] in its [parent] field; every child link and every parent
    back-reference inside [t] is the one the shape shows. *)
Fixpoint rep (h : gmap addr RBTNode) (par : ptr) (t : tree) : Prop :=
  match t with
  | Leaf => True
  | Node a c l k r =>
      (∃ b, h !! a = Some (mkNode k c (ptr_of l) (ptr_of r) par b))
      ∧ rep h (Some a) l ∧ rep h (Some a) r
  end.

(** The addresses, the keys and the (colour, key) pairs of a shape, in
    order, and its height. *)
Fixpoint addrs (t : tree) : list addr :=
  match t with
  | Leaf => []
  | Node a _ l _ r => addrs l ++ a :: addrs r
  end.

Fixpoint keys (t : tree) : list Z :=
  match t with
  | Leaf => []
  | Node _ _ l k r => keys l ++ k :: keys r
  end.

Fixpoint nodes (t : tree) : list (Color * Z) :=
  match t with
  | Leaf => []
  | Node _ c l k r => nodes l ++ (c, k) :: nodes r
  end.

Fixpoint height (t : tree) : nat :=
  match t with
  | Leaf => O
  | Node _ _ l _ r => S (Nat.max (height l) (height r))
  end.

(** The object of [s] is a tree of shape [t] with pairwise distinct
    nodes. *)
Definition abs (s : state) (t : tree) : Prop :=
  rep (mem s) None t ∧ root (this s) = ptr_of t ∧ NoDup (addrs t).

(** ** Contexts *)

(** One step of a path from the root: the node passed and the subtree
    left aside. *)
Inductive frame :=
  | HoleL (a : addr) (c : Color) (k : Z) (r : tree)
  | HoleR (a : addr) (c : Color) (l : tree) (k : Z).

Definition f_addr (f : frame) : addr :=
  match f with HoleL a _ _ _ | HoleR a _ _ _ => a end.
Definition f_color (f : frame) : Color :=
  match f with HoleL _ c _ _ | HoleR _ c _ _ => c end.
Definition f_sib (f : frame) : tree :=
  match f with HoleL _ _ _ t | HoleR _ _ t _ => t end.

Definition plug1 (f : frame) (t : tree) : tree :=
  match f with
  | HoleL a c k r => Node a c t k r
  | HoleR a c l k => Node a c l k t
  end.

(** A context lists the frames from the hole up to the root. *)
Fixpoint plug (ctx : list frame) (t : tree) : tree :=
  match ctx with
  | [] => t
  | f :: ctx' => plug ctx' (plug1 f t)
  end.

(** The [parent] field of the node in the hole. *)
Definition ctx_par (ctx : list frame) : ptr :=
  match ctx with
  | [] => None
  | f :: _ => Some (f_addr f)
  end.

(** [rep_ctx h ctx hole]: the heap holds the frames of [ctx], the
    innermost one pointing to [hole] on the side of the hole. *)
Fixpoint rep_ctx (h : gmap addr RBTNode) (ctx : list frame) (hole : ptr) : Prop :=
  match ctx with
  | [] => True
  | f :: ctx' =>
      (∃ b, h !! f_addr f = Some
         match f with
         | HoleL _ c k r => mkNode k c hole (ptr_of r) (ctx_par ctx') b
         | HoleR _ c l k => mkNode k c (ptr_of l) hole (ctx_par ctx') b
         end)
      ∧ rep h (Some (f_addr f)) (f_sib f)
      ∧ rep_ctx h ctx' (Some (f_addr f))
  end.

Fixpoint ctx_addrs (ctx : list frame) : list addr :=
  match ctx with
  | [] => []
  | f :: ctx' => f_addr f :: addrs (f_sib f) ++ ctx_addrs ctx'
  end.

Definition set_fcolor (c : Color) (f : frame) : frame :=
  match f with
  | HoleL a _ k r => HoleL a c k r
  | HoleR a _ l k => HoleR a c l k
  end.

Definition set_fsib (t : tree) (f : frame) : frame :=
  match f with
  | HoleL a c k _ => HoleL a c k t
  | HoleR a c _ k => HoleR a c t k
  end.

(** ** What a call leaves alone *)

Definition disj (l k : list addr) : Prop := ∀ x, x ∈ l → x ∉ k.

(** What a rotation may touch: the links of the pivot, of the promoted
    child, of the transplanted subtree's top node and of the pivot's
    parent; no [data], [color] or [IsNullNode] field anywhere. *)
Definition same_payload (h h' : gmap addr RBTNode) : Prop :=
  ∀ a n, h !! a = Some n →
    ∃ n', h' !! a = Some n' ∧ data n' = data n ∧ color n' = color n
          ∧ IsNullNode n' = IsNullNode n.

(** Every cell but those the pointers of [A] name is as it was. *)
Definition unchanged_but (A : list ptr) (h h' : gmap addr RBTNode) : Prop :=
  ∀ a, Some a ∉ A → h' !! a = h !! a.

(** Every cell that is not a node of [t] is as it was. *)
Definition unchanged_out (t : tree) (h h' : gmap addr RBTNode) : Prop :=
  ∀ a, a ∉ addrs t → h' !! a = h !! a.

(** ** Red-black shapes and search trees *)

Definition root_black (t : tree) : Prop :=
  match t with
  | Node _ COLOR_RED _ _ _ => False
  | _ => True
  end.

(** [rb t n]: no red node of [t] has a red child, and every path from the
    top of [t] to an absent child passes [n] black nodes. *)
Fixpoint rb (t : tree) (n : nat) : Prop :=
  match t with
  | Leaf => n = O
  | Node _ COLOR_RED l _ r => root_black l ∧ root_black r ∧ rb l n ∧ rb r n
  | Node _ COLOR_BLACK l _ r =>
      match n with
      | O => False
      | S m => rb l m ∧ rb r m
      end
  end.

Definition head_black (ctx : list frame) : Prop :=
  match ctx with
  | f :: _ => f_color f = COLOR_BLACK
  | [] => False
  end.

(** [ctx_rb ctx n]: the context is red-black around a hole that expects
    black height [n]; the only place left unchecked is the edge between
    the hole and the first frame. *)
Fixpoint ctx_rb (ctx : list frame) (n : nat) : Prop :=
  match ctx with
  | [] => True
  | f :: ctx' =>
      rb (f_sib f) n ∧
      match f_color f with
      | COLOR_BLACK => ctx_rb ctx' (S n)
      | COLOR_RED => root_black (f_sib f) ∧ head_black ctx' ∧ ctx_rb ctx' n
      end
  end.

Definition blacken (t : tree) : tree :=
  match t with
  | Leaf => Leaf
  | Node a _ l k r => Node a COLOR_BLACK l k r
  end.

(** A shape is a red-black tree when its top is black and it is
    red-black below. *)
Definition is_redblack (t : tree) : Prop :=
  root_black t ∧ ∃ n, rb t n.

(** A shape is a search tree when its keys, in order, strictly ascend. *)
Definition bst (t : tree) : Prop := StronglySorted Z.lt (keys t).

(** The comparisons taken on the way down to a hole, for the key [k]. *)
Definition path_ok (k : Z) (ctx : list frame) : Prop :=
  Forall (λ f, match f with
               | HoleL _ _ kk _ => k < kk
               | HoleR _ _ _ kk => ¬ k < kk
               end) ctx.

(** The invariant of a tree object: its nodes form a shape that is a
    search tree and a red-black tree, and [numItems] counts them. *)
Definition tree_inv (s : state) (t : tree) : Prop :=
  abs s t ∧ bst t ∧ is_redblack t
  ∧ numItems (this s) = N.of_nat (length (keys t)).

(** Cells that were allocated and are not nodes of [t] keep their
    contents. *)
Definition preserves_others (t : tree) (h h' : gmap addr RBTNode) : Prop :=
  ∀ x, x ∉ addrs t → is_Some (h !! x) → h' !! x = h !! x.

(** ** Renderings *)

(** What [GetNodeString] returns for a node of colour [c] and key [k]. *)
Definition node_string (c : Color) (k : Z) : string :=
  " " +:+ (if bool_decide (c = COLOR_RED) then "R" else "B")
      +:+ to_string k +:+ " ".

Global Arguments node_string : simpl never.

Fixpoint infix_string (t : tree) : string :=
  match t with
  | Leaf => ""
  | Node _ c l k r => infix_string l +:+ node_string c k +:+ infix_string r
  end.

Fixpoint prefix_string (t : tree) : string :=
  match t with
  | Leaf => ""
  | Node _ c l k r => node_string c k +:+ prefix_string l +:+ prefix_string r
  end.

Fixpoint postfix_string (t : tree) : string :=
  match t with
  | Leaf => ""
  | Node _ c l k r => postfix_string l +:+ postfix_string r +:+ node_string c k
  end.

(** The rendering of a sequence of nodes, one after the other. *)
Definition render (l : list (Color * Z)) : string :=
  foldr (λ x acc, node_string x.1 x.2 +:+ acc) "" l.

(** The shape with its addresses forgotten: what a copy has in common
    with its source. *)
Fixpoint erase (t : tree) : tree :=
  match t with
  | Leaf => Leaf
  | Node _ c l k r => Node O c (erase l) k (erase r)
  end.

(** ** The heap seen from the root *)

(** [reach h p a]: the node at [a] is found from the pointer [p] by
    following [left] and [right] links. *)
Inductive reach (h : gmap addr RBTNode) : ptr → addr → Prop :=
  | reach_here a n : h !! a = Some n → reach h (Some a) a
  | reach_left a n b : h !! a = Some n → reach h (left n) b → reach h (Some a) b
  | reach_right a n b : h !! a = Some n → reach h (right n) b → reach h (Some a) b.

(** The nodes of the tree object, and the keys it stores. *)
Definition node_of (s : state) (a : addr) : Prop :=
  reach (mem s) (root (this s)) a.

Definition stored (s : state) (k : Z) : Prop :=
  ∃ a n, node_of s a ∧ mem s !! a = Some n ∧ data n = k.

Definition is_black (c : Color) : nat :=
  match c with COLOR_BLACK => 1 | COLOR_RED => 0 end.

(** [black_path h p n]: some path from [p] down to an absent child passes
    exactly [n] BLACK nodes. *)
Inductive black_path (h : gmap addr RBTNode) : ptr → nat → Prop :=
  | black_path_null : black_path h None 0
  | black_path_left a nd n :
      h !! a = Some nd → black_path h (left nd) n →
      black_path h (Some a) (is_black (color nd) + n)
  | black_path_right a nd n :
      h !! a = Some nd → black_path h (right nd) n →
      black_path h (Some a) (is_black (color nd) + n).

(** ** Runs *)

(** [refines o o']: [o'] is [o], or [o] ran out of fuel. *)
Definition refines {A} (o o' : outcome A) : Prop := o = OutOfFuel ∨ o = o'.

(** [built s]: the object of [s] was made by a constructor and then by
    calls of [Insert] that returned normally, in a heap that may hold
    other nodes; between two calls the rest of the program may allocate
    and write cells that are not nodes of the tree ([built_elsewhere]).
    The fuel of a call is the model's bound on the iterations of its
    loops: a call that returns does so with the same result for any
    larger fuel. *)
Inductive built : state → Prop :=
  | built_default s0 s :
      RedBlackTree_default s0 = Ok tt s → built s
  | built_single s0 k s :
      RedBlackTree_single k s0 = Ok tt s → built s
  | built_copy src s0 fuel s :
      built src → mem s0 = mem src →
      RedBlackTree_copy fuel (this src) s0 = Ok tt s → built s
  | built_insert s fuel k s' :
      built s → Insert fuel k s = Ok tt s' → built s'
  | built_elsewhere s h' :
      built s →
      (∀ a, node_of s a → h' !! a = mem s !! a) →
      built (with_mem h' s).

(** The two trees render alike, in order. *)
Definition same_infix (s s' : state) (n : nat) : Prop :=
  ∀ fuel, (n ≤ fuel)%nat →
    ∃ str, ToInfixString fuel (root (this s)) s = Ok str s
         ∧ ToInfixString fuel (root (this s')) s' = Ok str s'.

(** The three renderings of a tree object, given fuel for its size. *)
Definition renders (s : state) (i p o : string) : Prop :=
  ∀ fuel, (N.to_nat (numItems (this s)) ≤ fuel)%nat →
    ToInfixString fuel (root (this s)) s = Ok i s
    ∧ ToPrefixString fuel (root (this s)) s = Ok p s
    ∧ ToPostfixString fuel (root (this s)) s = Ok o s.

(** Every parent back-reference of the tree is the inverse of the child
    link that leads to it, and the root has none. *)
Definition parents_linked (s : state) : Prop :=
  (∀ r n, root (this s) = Some r → mem s !! r = Some n → parent n = None)
  ∧ (∀ a n b, node_of s a → mem s !! a = Some n →
       left n = Some b ∨ right n = Some b →
       ∃ m, mem s !! b = Some m ∧ parent m = Some a).

(** ** Concrete runs *)

(** A fresh, empty free store with an object not yet constructed. *)
Definition state0 : state := mkState ∅ (mkTree None 0).

Definition exec (m : M unit) (s : state) : state :=
  match m s with
  | Ok _ s' => s'
  | _ => s
  end.

(** [RedBlackTree t; t.Insert(10); t.Insert(20); t.Insert(30);] *)
Definition tree_10 : state := exec (Insert 8 10) (exec RedBlackTree_default state0).
Definition tree_10_20 : state := exec (Insert 8 20) tree_10.
Definition tree_10_20_30 : state := exec (Insert 8 30) tree_10_20.

(** The tree of 10, 20, ..., 60, and the cells and the shape the examples
    name. *)
Definition tree_10_to_60 : state :=
  exec (Insert 8 60) (exec (Insert 8 50) (exec (Insert 8 40) tree_10_20_30)).

Definition node_10 : RBTNode := mkNode 10 COLOR_RED None None (Some 1%nat) false.
Definition node_20 : RBTNode :=
  mkNode 20 COLOR_BLACK (Some 0%nat) (Some 2%nat) None false.
Definition node_30 : RBTNode := mkNode 30 COLOR_RED None None (Some 1%nat) false.

Definition node_40 : RBTNode :=
  mkNode 40 COLOR_RED (Some 2%nat) (Some 4%nat) (Some 1%nat) false.
Definition node_30' : RBTNode :=
  mkNode 30 COLOR_BLACK None None (Some 3%nat) false.
Definition node_20' : RBTNode :=
  mkNode 20 COLOR_BLACK (Some 0%nat) (Some 3%nat) None false.

Definition shape_10_20_30 : tree :=
  Node 1%nat COLOR_BLACK (Node 0%nat COLOR_RED Leaf 10 Leaf) 20
       (Node 2%nat COLOR_RED Leaf 30 Leaf).

(** * Lemmas *)

(** ** Basic facts on shapes and contexts *)

Lemma rep_ext h h' par t :
  (∀ a, a ∈ addrs t → h' !! a = h !! a) → rep h par t → rep h' par t.
Proof.
  revert par. induction t as [|a c l IHl k r IHr]; intros par Hag; simpl; [done|].
  intros [[b Hb] [Hl Hr]]. split_and!.
  - exists b. rewrite Hag; [done|]. simpl. set_solver.
  - apply IHl; [|done]. intros x Hx. apply Hag. simpl. set_solver.
  - apply IHr; [|done]. intros x Hx. apply Hag. simpl. set_solver.
Qed.

Lemma rep_insert h par t a v :
  a ∉ addrs t → rep h par t → rep (<[a := v]> h) par t.
Proof.
  intros Ha. apply rep_ext. intros x Hx. apply lookup_insert_ne. set_solver.
Qed.

Lemma rep_ctx_ext h h' ctx hole :
  (∀ a, a ∈ ctx_addrs ctx → h' !! a = h !! a) →
  rep_ctx h ctx hole → rep_ctx h' ctx hole.
Proof.
  revert hole. induction ctx as [|f ctx IH]; intros hole Hag; simpl; [done|].
  intros [[b Hb] [Hs Hc]]. split_and!.
  - exists b. rewrite Hag; [done|]. simpl. set_solver.
  - eapply rep_ext; [|done]. intros x Hx. apply Hag. simpl. set_solver.
  - apply IH; [|done]. intros x Hx. apply Hag. simpl. set_solver.
Qed.

Lemma rep_ctx_insert h ctx hole a v :
  a ∉ ctx_addrs ctx → rep_ctx h ctx hole → rep_ctx (<[a := v]> h) ctx hole.
Proof.
  intros Ha. apply rep_ctx_ext. intros x Hx. apply lookup_insert_ne. set_solver.
Qed.

Lemma ptr_of_plug1 f t : ptr_of (plug1 f t) = Some (f_addr f).
Proof. by destruct f. Qed.

Lemma rep_plug h ctx t :
  rep h None (plug ctx t) ↔ rep h (ctx_par ctx) t ∧ rep_ctx h ctx (ptr_of t).
Proof.
  revert t. induction ctx as [|f ctx IH]; intros t; simpl; [tauto|].
  rewrite IH, ptr_of_plug1. destruct f; simpl; tauto.
Qed.

Lemma addrs_plug ctx t : addrs (plug ctx t) ≡ₚ addrs t ++ ctx_addrs ctx.
Proof.
  revert t. induction ctx as [|f ctx IH]; intros t; simpl.
  - by rewrite app_nil_r.
  - rewrite IH. destruct f; simpl; solve_Permutation.
Qed.

Lemma addrs_plug_congr ctx t t' :
  addrs t = addrs t' → addrs (plug ctx t) = addrs (plug ctx t').
Proof.
  revert t t'. induction ctx as [|f ctx IH]; intros t t' E; simpl; [done|].
  apply IH. destruct f; simpl; by rewrite E.
Qed.

Lemma keys_plug_congr ctx t t' :
  keys t = keys t' → keys (plug ctx t) = keys (plug ctx t').
Proof.
  revert t t'. induction ctx as [|f ctx IH]; intros t t' E; simpl; [done|].
  apply IH. destruct f; simpl; by rewrite E.
Qed.

Lemma ptr_of_plug ctx t :
  ptr_of (plug ctx t) =
  match last ctx with Some f => Some (f_addr f) | None => ptr_of t end.
Proof.
  revert t. induction ctx as [|f ctx IH]; intros t; [done|].
  change (plug (f :: ctx) t) with (plug ctx (plug1 f t)).
  rewrite IH, ptr_of_plug1. destruct ctx as [|g ctx]; [done|].
  change (last (f :: g :: ctx)) with (last (g :: ctx)).
  destruct (last (g :: ctx)) eqn:E; [done|].
  by apply last_None in E.
Qed.

(** ** Distinctness of addresses *)

Lemma NoDup_app_disj (l k : list addr) :
  NoDup (l ++ k) ↔ NoDup l ∧ disj l k ∧ NoDup k.
Proof. apply NoDup_app. Qed.

Lemma disj_app_l l1 l2 k : disj (l1 ++ l2) k ↔ disj l1 k ∧ disj l2 k.
Proof.
  unfold disj. split.
  - intros H. split; intros x Hx; apply H, elem_of_app; auto.
  - intros [H1 H2] x [Hx|Hx]%elem_of_app; auto.
Qed.

Lemma disj_cons_l a l k : disj (a :: l) k ↔ (a ∉ k) ∧ disj l k.
Proof.
  unfold disj. split.
  - intros H. split; [|intros x Hx]; apply H, elem_of_cons; auto.
  - intros [H1 H2] x [->|Hx]%elem_of_cons; auto.
Qed.

Lemma disj_app_r l k1 k2 : disj l (k1 ++ k2) ↔ disj l k1 ∧ disj l k2.
Proof.
  unfold disj. split.
  - intros H. split; intros x Hx Hk; apply (H x Hx), elem_of_app; auto.
  - intros [H1 H2] x Hx [Hk|Hk]%elem_of_app; [by eapply H1|by eapply H2].
Qed.

Lemma disj_cons_r b l k : disj l (b :: k) ↔ (b ∉ l) ∧ disj l k.
Proof.
  unfold disj. split.
  - intros H. split.
    + intros Hb. apply (H b Hb), elem_of_cons. auto.
    + intros x Hx Hk. apply (H x Hx), elem_of_cons. auto.
  - intros [H1 H2] x Hx [->|Hk]%elem_of_cons; [done|by eapply H2].
Qed.

Lemma ptr_of_notin a t : a ∉ addrs t → ptr_of t ≠ Some a.
Proof. destruct t; simpl; [done|]. set_solver. Qed.

Lemma ptr_of_notin' a t : a ∉ addrs t → Some a ≠ ptr_of t.
Proof. intros H E. by eapply ptr_of_notin. Qed.

(** Breaks the distinctness facts of the context into disequalities of
    addresses and non-memberships in subtrees. *)
Ltac split_facts :=
  repeat match goal with
    | H : _ ∧ _ |- _ => destruct H
    | H : True |- _ => clear H
    | H : NoDup (_ ++ _) |- _ => apply NoDup_app_disj in H
    | H : NoDup (_ :: _) |- _ => apply NoDup_cons in H
    | H : NoDup [] |- _ => clear H
    | H : NoDup (addrs Leaf) |- _ => clear H
    | H : NoDup (addrs (Node _ _ _ _ _)) |- _ => simpl in H
    | H : disj (_ ++ _) _ |- _ => apply disj_app_l in H
    | H : disj (_ :: _) _ |- _ => apply disj_cons_l in H
    | H : disj [] _ |- _ => clear H
    | H : disj (addrs Leaf) _ |- _ => clear H
    | H : disj (addrs (Node _ _ _ _ _)) _ |- _ => simpl in H
    | H : disj (ctx_addrs []) _ |- _ => clear H
    | H : disj (ctx_addrs (_ :: _)) _ |- _ => simpl in H
    | H : disj _ (_ ++ _) |- _ => apply disj_app_r in H
    | H : disj _ (_ :: _) |- _ => apply disj_cons_r in H
    | H : disj _ [] |- _ => clear H
    | H : disj _ (addrs Leaf) |- _ => clear H
    | H : disj _ (addrs (Node _ _ _ _ _)) |- _ => simpl in H
    | H : disj _ (ctx_addrs []) |- _ => clear H
    | H : disj _ (ctx_addrs (_ :: _)) |- _ => simpl in H
    | H : _ ∉ _ ++ _ |- _ => apply not_elem_of_app in H
    | H : _ ∉ _ :: _ |- _ => apply not_elem_of_cons in H
    | H : _ ∉ [] |- _ => clear H
    | H : _ ∉ addrs Leaf |- _ => clear H
    | H : _ ∉ addrs (Node _ _ _ _ _) |- _ => simpl in H
    | H : _ ∉ ctx_addrs [] |- _ => clear H
    | H : _ ∉ ctx_addrs (_ :: _) |- _ => simpl in H
    | H : NoDup (ctx_addrs []) |- _ => clear H
    | H : NoDup (ctx_addrs (_ :: _)) |- _ => simpl in H
    end.

Ltac nodup_split H := simpl in H; split_facts.

(** ** Running the monad on known cells *)

Ltac solve_ne :=
  solve [ assumption | symmetry; assumption | congruence
        | apply ptr_of_notin; assumption
        | apply ptr_of_notin'; assumption ].

Ltac hsimp :=
  repeat first
    [ progress cbn [mem this root numItems with_mem with_this
                    data color left right parent IsNullNode
                    set_data set_color set_left set_right set_parent
                    set_IsNullNode ptr_of f_addr f_color f_sib ctx_par]
    | rewrite lookup_insert_eq
    | rewrite lookup_insert_ne by solve_ne
    | match goal with
      | H : ?h !! ?a = Some _ |- context [?h !! ?a] => rewrite H
      end
    | rewrite bool_decide_eq_true_2 by done
    | rewrite bool_decide_eq_false_2 by solve_ne ].

Ltac unfold_ops :=
  unfold bind, get, put, ret, get_root, set_root, get_numItems, set_numItems,
    with_mem, with_this.

Ltac solve_cell := eexists; hsimp; reflexivity.

Ltac solve_frame :=
  repeat first [ apply rep_insert; [solve_ne|]
               | apply rep_ctx_insert; [solve_ne|] ];
  assumption.

Ltac destruct_ex :=
  repeat match goal with
         | H : ∃ _, _ |- _ => destruct H
         | H : _ ∧ _ |- _ => destruct H
         end.

Lemma ptr_of_plug_congr ctx t t' :
  ptr_of t = ptr_of t' → ptr_of (plug ctx t) = ptr_of (plug ctx t').
Proof. intros E. rewrite !ptr_of_plug. by rewrite E. Qed.

Ltac solve_root :=
  match goal with
  | H : root (this _) = _ |- _ => simpl in H; simpl; try rewrite H
  end;
  first [ reflexivity | apply ptr_of_plug_congr; reflexivity ].

Lemma same_payload_refl h : same_payload h h.
Proof. intros a n H. eauto. Qed.

Lemma same_payload_insert h h' x n v :
  same_payload h h' → h' !! x = Some n →
  data v = data n → color v = color n → IsNullNode v = IsNullNode n →
  same_payload h (<[x := v]> h').
Proof.
  intros Hsp Hx E1 E2 E3 a m Ha.
  destruct (Hsp a m Ha) as (m' & Hm' & ? & ? & ?).
  destruct (decide (x = a)) as [->|Hne].
  - rewrite lookup_insert_eq. eexists; split; [done|].
    rewrite Hx in Hm'. injection Hm' as <-. by rewrite E1, E2, E3.
  - rewrite lookup_insert_ne by done. eauto.
Qed.

Lemma unchanged_but_refl A h : unchanged_but A h h.
Proof. by intros a _. Qed.

Lemma unchanged_but_insert A h h' x v :
  Some x ∈ A → unchanged_but A h h' → unchanged_but A h (<[x := v]> h').
Proof.
  intros Hx H a Ha. rewrite lookup_insert_ne; [by apply H|].
  intros ->. done.
Qed.

Ltac solve_payload :=
  repeat first
    [ apply same_payload_refl
    | eapply same_payload_insert; [| hsimp; reflexivity | reflexivity ..] ].

Ltac solve_unchanged :=
  repeat first
    [ apply unchanged_but_refl
    | apply unchanged_but_insert;
      [ rewrite ?elem_of_cons; auto 10 | ] ].

Lemma unchanged_out_refl t h : unchanged_out t h h.
Proof. by intros a _. Qed.

Lemma unchanged_out_insert t h h' x v :
  x ∈ addrs t → unchanged_out t h h' → unchanged_out t h (<[x := v]> h').
Proof.
  intros Hx H a Ha. rewrite lookup_insert_ne; [by apply H|].
  intros ->. done.
Qed.

Lemma unchanged_out_trans t t' h1 h2 h3 :
  addrs t' = addrs t →
  unchanged_out t h1 h2 → unchanged_out t' h2 h3 → unchanged_out t h1 h3.
Proof.
  intros E H1 H2 a Ha. rewrite H2, H1; [done..|]. by rewrite E.
Qed.

Lemma in_addrs_plug ctx t a :
  a ∈ addrs t ++ ctx_addrs ctx → a ∈ addrs (plug ctx t).
Proof. by rewrite addrs_plug. Qed.

Ltac solve_in_addrs :=
  try apply in_addrs_plug; simpl;
  repeat first [rewrite elem_of_app | rewrite elem_of_cons];
  intuition congruence.

Ltac solve_unchanged_out :=
  repeat first
    [ apply unchanged_out_refl
    | apply unchanged_out_insert; [solve_in_addrs|] ].

Lemma LeftRotate_plug s ctx n cn ta kn r cr tb kr td :
  abs s (plug ctx (Node n cn ta kn (Node r cr tb kr td))) →
  ∃ s', LeftRotate (Some n) s = Ok tt s'
    ∧ abs s' (plug ctx (Node r cr (Node n cn ta kn tb) kr td))
    ∧ numItems (this s') = numItems (this s)
    ∧ same_payload (mem s) (mem s')
    ∧ unchanged_but [Some n; Some r; ptr_of tb; ctx_par ctx] (mem s) (mem s')
    ∧ unchanged_out (plug ctx (Node n cn ta kn (Node r cr tb kr td)))
        (mem s) (mem s').
Proof.
  intros (Hrep & Hroot & Hnd).
  assert (NoDup (addrs (plug ctx (Node r cr (Node n cn ta kn tb) kr td)))) as Hnd'.
  { erewrite addrs_plug_congr; [exact Hnd|]. simpl. by rewrite <- !app_assoc. }
  apply rep_plug in Hrep as [Hsub Hctx].
  rewrite addrs_plug in Hnd. simpl in Hsub.
  destruct Hsub as ([bn Hn] & Ha & [br Hr] & Hb & Hd).
  unfold abs. setoid_rewrite rep_plug.
  unfold LeftRotate, IsLeftChild. unfold_ops.
  destruct tb as [|b cb tbl kb tbr];
    destruct ctx as [|[pa pc pk pr|pa pc pl pk] ctx];
    simpl in Hctx, Hb; nodup_split Hnd; destruct_ex.
  all: hsimp.
  all: eexists; split; [reflexivity|]; hsimp; simpl.
  all: split_and!; try done; try solve_cell; try solve_frame; try solve_root.
  all: try solve_payload; try solve_unchanged; try solve_unchanged_out.
Qed.

Lemma RightRotate_plug s ctx n cn l cl ta kl tb kn td :
  abs s (plug ctx (Node n cn (Node l cl ta kl tb) kn td)) →
  ∃ s', RightRotate (Some n) s = Ok tt s'
    ∧ abs s' (plug ctx (Node l cl ta kl (Node n cn tb kn td)))
    ∧ numItems (this s') = numItems (this s)
    ∧ same_payload (mem s) (mem s')
    ∧ unchanged_but [Some n; Some l; ptr_of tb; ctx_par ctx] (mem s) (mem s')
    ∧ unchanged_out (plug ctx (Node n cn (Node l cl ta kl tb) kn td))
        (mem s) (mem s').
Proof.
  intros (Hrep & Hroot & Hnd).
  assert (NoDup (addrs (plug ctx (Node l cl ta kl (Node n cn tb kn td))))) as Hnd'.
  { erewrite addrs_plug_congr; [exact Hnd|]. simpl. by rewrite <- !app_assoc. }
  apply rep_plug in Hrep as [Hsub Hctx].
  rewrite addrs_plug in Hnd. simpl in Hsub.
  destruct Hsub as ([bn Hn] & ([bl Hl] & Ha & Hb) & Hd).
  unfold abs. setoid_rewrite rep_plug.
  unfold RightRotate, IsRightChild. unfold_ops.
  destruct tb as [|b cb tbl kb tbr];
    destruct ctx as [|[pa pc pk pr|pa pc pl pk] ctx];
    simpl in Hctx, Hb; nodup_split Hnd; destruct_ex.
  all: hsimp.
  all: eexists; split; [reflexivity|]; hsimp; simpl.
  all: split_and!; try done; try solve_cell; try solve_frame; try solve_root.
  all: try solve_payload; try solve_unchanged; try solve_unchanged_out.
Qed.

(** ** The fix-up loop, one iteration at a time *)

Lemma last_in_ctx_addrs ctx f :
  last ctx = Some f → f_addr f ∈ ctx_addrs ctx.
Proof.
  induction ctx as [|g ctx IH]; [done|].
  destruct ctx as [|g' ctx].
  - intros [= ->]. simpl. set_solver.
  - intros H. specialize (IH H). simpl in *. set_solver.
Qed.

Lemma root_not_in_hole ctx t a :
  ctx ≠ [] → NoDup (addrs (plug ctx t)) → a ∈ addrs t →
  Some a ≠ ptr_of (plug ctx t).
Proof.
  intros Hne Hnd Ha. rewrite ptr_of_plug.
  destruct (last ctx) as [f|] eqn:E; [|by apply last_None in E].
  apply last_in_ctx_addrs in E.
  rewrite addrs_plug in Hnd. apply NoDup_app in Hnd as (_ & Hd & _).
  intros [= ->]. by eapply Hd.
Qed.

Ltac unfold_fixup :=
  cbn [InsertFixUp_loop];
  unfold recolor_and_ascend, GetUncle, IsLeftChild, IsRightChild;
  unfold_ops.

Lemma uncle_is_red_black s par ut :
  rep (mem s) par ut → root_black ut → uncle_is_red (ptr_of ut) s = Ok false s.
Proof.
  destruct ut as [|u [] ul uk ur]; simpl; [done..|].
  intros ([b Hb] & _) _. unfold uncle_is_red. unfold_ops. by hsimp.
Qed.

Lemma uncle_is_red_red s par u ul uk ur :
  rep (mem s) par (Node u COLOR_RED ul uk ur) →
  uncle_is_red (Some u) s = Ok true s.
Proof.
  simpl. intros ([b Hb] & _). unfold uncle_is_red. unfold_ops. by hsimp.
Qed.

Lemma fixup_exit_root s n c l k r fuel :
  abs s (Node n c l k r) →
  InsertFixUp_loop (S fuel) (Some n) s = Ok tt s.
Proof.
  intros (Hrep & Hroot & Hnd). simpl in Hroot.
  unfold_fixup. rewrite Hroot. by hsimp.
Qed.

Lemma fixup_exit_black s f ctx n c l k r fuel :
  abs s (plug (f :: ctx) (Node n c l k r)) →
  f_color f = COLOR_BLACK →
  InsertFixUp_loop (S fuel) (Some n) s = Ok tt s.
Proof.
  intros (Hrep & Hroot & Hnd) Hc.
  assert (Some n ≠ root (this s)) as Hnr.
  { rewrite Hroot. apply root_not_in_hole; [done..|]. simpl. set_solver. }
  apply rep_plug in Hrep as [Hsub Hctx].
  destruct f; simpl in Hc, Hsub, Hctx; subst; destruct_ex.
  all: unfold_fixup; by hsimp.
Qed.

Ltac solve_nodup H :=
  simpl; simpl in H; erewrite addrs_plug_congr; [exact H|];
  simpl; repeat (rewrite <- app_assoc; simpl); reflexivity.

Ltac solve_abs H :=
  split_and!;
  [ apply rep_plug; simpl; split_and!;
    first [exact I | solve_cell | solve_frame]
  | solve_root
  | solve_nodup H ].

(** Uncle is red (both sides): recolour and move two levels up. *)
Lemma fixup_uncle_red s rest pf gf n cn tl kn tr u ul uk ur fuel :
  let t := Node n cn tl kn tr in
  f_color pf = COLOR_RED →
  f_sib gf = Node u COLOR_RED ul uk ur →
  abs s (plug (pf :: gf :: rest) t) →
  ∃ s',
    InsertFixUp_loop (S fuel) (Some n) s
      = InsertFixUp_loop fuel (Some (f_addr gf)) s'
    ∧ abs s' (plug (set_fcolor COLOR_BLACK pf
                    :: set_fcolor COLOR_RED
                         (set_fsib (Node u COLOR_BLACK ul uk ur) gf)
                    :: rest) t)
    ∧ this s' = this s
    ∧ unchanged_out (plug (pf :: gf :: rest) t) (mem s) (mem s').
Proof.
  intros t Hpc Hu (Hrep & Hroot & Hnd).
  assert (Some n ≠ root (this s)) as Hnr.
  { rewrite Hroot. apply root_not_in_hole; [done..|]. simpl. set_solver. }
  pose proof Hnd as Hnd0.
  apply rep_plug in Hrep as [Hsub Hctx].
  rewrite addrs_plug in Hnd.
  unfold abs.
  destruct pf as [p cp kp sb|p cp sb kp]; simpl in Hpc; subst cp;
    destruct gf as [g cg kg us|g cg us kg]; simpl in Hu; subst us;
    simpl in Hsub, Hctx; nodup_split Hnd; destruct_ex.
  all: unfold_fixup; hsimp.
  all: erewrite uncle_is_red_red by (simpl; split_and!; [solve_cell|done..]).
  all: hsimp.
  all: eexists; split; [reflexivity|]; hsimp.
  all: split; [solve_abs Hnd0|].
  all: split; [done|].
  all: simpl; solve_unchanged_out.
Qed.

(** Uncle black, parent a left child, node a left child: recolour and
    rotate the grandparent to the right. *)
Lemma fixup_outer_L s rest p kp sb g cg kg ut n cn tl kn tr fuel :
  let T := plug (HoleL p COLOR_RED kp sb :: HoleL g cg kg ut :: rest)
                (Node n cn tl kn tr) in
  root_black ut →
  abs s T →
  ∃ s', InsertFixUp_loop (S (S fuel)) (Some n) s = Ok tt s'
    ∧ abs s' (plug (HoleL p COLOR_BLACK kp (Node g COLOR_RED sb kg ut) :: rest)
                   (Node n cn tl kn tr))
    ∧ numItems (this s') = numItems (this s)
    ∧ unchanged_out T (mem s) (mem s').
Proof.
  intros T Hu (Hrep & Hroot & Hnd). subst T.
  assert (Some n ≠ root (this s)) as Hnr.
  { rewrite Hroot. apply root_not_in_hole; [done..|]. simpl. set_solver. }
  pose proof Hnd as Hnd0.
  apply rep_plug in Hrep as [Hsub Hctx].
  rewrite addrs_plug in Hnd.
  simpl in Hsub, Hctx; nodup_split Hnd; destruct_ex.
  remember (S fuel) as fuel1 eqn:Ef.
  unfold_fixup; hsimp.
  erewrite uncle_is_red_black by done.
  hsimp.
  match goal with
  | |- context [RightRotate _ ?s1] =>
      destruct (RightRotate_plug s1 rest g COLOR_RED p COLOR_BLACK
                  (Node n cn tl kn tr) kp sb kg ut)
        as (s2 & Hrot & Habs2 & Hnum2 & _ & _ & Hout2);
      [ unfold abs; hsimp; solve_abs Hnd0 | rewrite Hrot ]
  end.
  subst fuel1. exists s2. split_and!.
  - eapply (fixup_exit_black _ (HoleL _ _ _ _)); [exact Habs2|done].
  - exact Habs2.
  - done.
  - eapply unchanged_out_trans; [| |exact Hout2].
    + simpl. apply addrs_plug_congr. reflexivity.
    + simpl. solve_unchanged_out.
Qed.

(** Mirror image: parent a right child, node a right child. *)
Lemma fixup_outer_R s rest p kp sb g cg kg ut n cn tl kn tr fuel :
  let T := plug (HoleR p COLOR_RED sb kp :: HoleR g cg ut kg :: rest)
                (Node n cn tl kn tr) in
  root_black ut →
  abs s T →
  ∃ s', InsertFixUp_loop (S (S fuel)) (Some n) s = Ok tt s'
    ∧ abs s' (plug (HoleR p COLOR_BLACK (Node g COLOR_RED ut kg sb) kp :: rest)
                   (Node n cn tl kn tr))
    ∧ numItems (this s') = numItems (this s)
    ∧ unchanged_out T (mem s) (mem s').
Proof.
  intros T Hu (Hrep & Hroot & Hnd). subst T.
  assert (Some n ≠ root (this s)) as Hnr.
  { rewrite Hroot. apply root_not_in_hole; [done..|]. simpl. set_solver. }
  pose proof Hnd as Hnd0.
  apply rep_plug in Hrep as [Hsub Hctx].
  rewrite addrs_plug in Hnd.
  simpl in Hsub, Hctx; nodup_split Hnd; destruct_ex.
  remember (S fuel) as fuel1 eqn:Ef.
  unfold_fixup; hsimp.
  erewrite uncle_is_red_black by done.
  hsimp.
  match goal with
  | |- context [LeftRotate _ ?s1] =>
      destruct (LeftRotate_plug s1 rest g COLOR_RED ut kg p COLOR_BLACK
                  sb kp (Node n cn tl kn tr))
        as (s2 & Hrot & Habs2 & Hnum2 & _ & _ & Hout2);
      [ unfold abs; hsimp; solve_abs Hnd0 | rewrite Hrot ]
  end.
  subst fuel1. exists s2. split_and!.
  - eapply (fixup_exit_black _ (HoleR _ _ _ _)); [exact Habs2|done].
  - exact Habs2.
  - done.
  - eapply unchanged_out_trans; [| |exact Hout2].
    + simpl. apply addrs_plug_congr. reflexivity.
    + simpl. solve_unchanged_out.
Qed.

(** Uncle black, parent a left child, node a right child: rotate the
    parent to the left, then proceed as in the outer case with the two
    nodes exchanged. *)
Lemma fixup_inner_L s rest p kp sb g cg kg ut n cn tl kn tr fuel :
  let T := plug (HoleR p COLOR_RED sb kp :: HoleL g cg kg ut :: rest)
                (Node n cn tl kn tr) in
  root_black ut →
  abs s T →
  ∃ s', InsertFixUp_loop (S (S fuel)) (Some n) s = Ok tt s'
    ∧ abs s' (plug (HoleL n COLOR_BLACK kn (Node g COLOR_RED tr kg ut) :: rest)
                   (Node p COLOR_RED sb kp tl))
    ∧ numItems (this s') = numItems (this s)
    ∧ unchanged_out T (mem s) (mem s').
Proof.
  intros T Hu Habs. subst T.
  destruct (LeftRotate_plug s (HoleL g cg kg ut :: rest) p COLOR_RED sb kp
              n cn tl kn tr Habs)
    as (s1 & Hrot1 & Habs1 & Hnum1 & _ & _ & Hout1).
  destruct Habs as (Hrep & Hroot & Hnd).
  assert (Some n ≠ root (this s)) as Hnr.
  { rewrite Hroot. apply root_not_in_hole; [done..|]. simpl. set_solver. }
  apply rep_plug in Hrep as [Hsub Hctx].
  rewrite addrs_plug in Hnd.
  simpl in Hsub, Hctx; nodup_split Hnd; destruct_ex.
  remember (S fuel) as fuel1 eqn:Ef.
  unfold_fixup; hsimp.
  erewrite uncle_is_red_black by done.
  hsimp. rewrite Hrot1.
  destruct Habs1 as (Hrep1 & Hroot1 & Hnd1).
  apply rep_plug in Hrep1 as [Hsub1 Hctx1].
  simpl in Hsub1, Hctx1. destruct_ex.
  hsimp.
  match goal with
  | |- context [RightRotate _ ?s2] =>
      destruct (RightRotate_plug s2 rest g COLOR_RED n COLOR_BLACK
                  (Node p COLOR_RED sb kp tl) kn tr kg ut)
        as (s3 & Hrot & Habs3 & Hnum3 & _ & _ & Hout3);
      [ unfold abs; hsimp; solve_abs Hnd1 | rewrite Hrot ]
  end.
  subst fuel1. exists s3. split_and!.
  - eapply (fixup_exit_black _ (HoleL _ _ _ _)); [exact Habs3|done].
  - exact Habs3.
  - simpl in Hnum3. congruence.
  - eapply unchanged_out_trans; [| |exact Hout3].
    + simpl. apply addrs_plug_congr. simpl.
      repeat (rewrite <- app_assoc; simpl). reflexivity.
    + eapply unchanged_out_trans; [|exact Hout1|].
      * reflexivity.
      * simpl. solve_unchanged_out.
Qed.

(** Mirror image: parent a right child, node a left child. *)
Lemma fixup_inner_R s rest p kp sb g cg kg ut n cn tl kn tr fuel :
  let T := plug (HoleL p COLOR_RED kp sb :: HoleR g cg ut kg :: rest)
                (Node n cn tl kn tr) in
  root_black ut →
  abs s T →
  ∃ s', InsertFixUp_loop (S (S fuel)) (Some n) s = Ok tt s'
    ∧ abs s' (plug (HoleR n COLOR_BLACK (Node g COLOR_RED ut kg tl) kn :: rest)
                   (Node p COLOR_RED tr kp sb))
    ∧ numItems (this s') = numItems (this s)
    ∧ unchanged_out T (mem s) (mem s').
Proof.
  intros T Hu Habs. subst T.
  destruct (RightRotate_plug s (HoleR g cg ut kg :: rest) p COLOR_RED
              n cn tl kn tr kp sb Habs)
    as (s1 & Hrot1 & Habs1 & Hnum1 & _ & _ & Hout1).
  destruct Habs as (Hrep & Hroot & Hnd).
  assert (Some n ≠ root (this s)) as Hnr.
  { rewrite Hroot. apply root_not_in_hole; [done..|]. simpl. set_solver. }
  apply rep_plug in Hrep as [Hsub Hctx].
  rewrite addrs_plug in Hnd.
  simpl in Hsub, Hctx; nodup_split Hnd; destruct_ex.
  remember (S fuel) as fuel1 eqn:Ef.
  unfold_fixup; hsimp.
  erewrite uncle_is_red_black by done.
  hsimp. rewrite Hrot1.
  destruct Habs1 as (Hrep1 & Hroot1 & Hnd1).
  apply rep_plug in Hrep1 as [Hsub1 Hctx1].
  simpl in Hsub1, Hctx1. destruct_ex.
  hsimp.
  match goal with
  | |- context [LeftRotate _ ?s2] =>
      destruct (LeftRotate_plug s2 rest g COLOR_RED ut kg n COLOR_BLACK
                  tl kn (Node p COLOR_RED tr kp sb))
        as (s3 & Hrot & Habs3 & Hnum3 & _ & _ & Hout3);
      [ unfold abs; hsimp; solve_abs Hnd1 | rewrite Hrot ]
  end.
  subst fuel1. exists s3. split_and!.
  - eapply (fixup_exit_black _ (HoleR _ _ _ _)); [exact Habs3|done].
  - exact Habs3.
  - simpl in Hnum3. congruence.
  - eapply unchanged_out_trans; [| |exact Hout3].
    + simpl. apply addrs_plug_congr. simpl.
      repeat (rewrite <- app_assoc; simpl). reflexivity.
    + eapply unchanged_out_trans; [|exact Hout1|].
      * reflexivity.
      * simpl. solve_unchanged_out.
Qed.

(** ** Red-black shapes *)

Lemma plug_rb ctx t n :
  rb t n → ctx_rb ctx n → root_black t ∨ head_black ctx ∨ ctx = [] →
  ∃ m, rb (plug ctx t) m.
Proof.
  revert t n. induction ctx as [|f ctx IH]; intros t n Ht Hc Hj; simpl.
  { eauto. }
  destruct f as [a [] k sb|a [] sb k]; simpl in Hc, Hj |- *;
    destruct Hc as (Hsb & Hc).
  - destruct Hc as (Hrs & Hhb & Hc).
    apply (IH _ n); [|done|by right; left].
    simpl. destruct Hj as [?|[?|?]]; done.
  - apply (IH _ (S n)); [|done|by left]. done.
  - destruct Hc as (Hrs & Hhb & Hc).
    apply (IH _ n); [|done|by right; left].
    simpl. destruct Hj as [?|[?|?]]; done.
  - apply (IH _ (S n)); [|done|by left]. done.
Qed.

(** A red-black shape with a black top splits, at any position, into a
    red-black subtree and a red-black context. *)
Lemma rb_plug_inv ctx t m :
  rb (plug ctx t) m → root_black (plug ctx t) →
  ∃ n, rb t n ∧ ctx_rb ctx n ∧ (root_black t ∨ head_black ctx).
Proof.
  revert t. induction ctx as [|f ctx IH]; intros t Hrb Hroot; simpl in *.
  { eauto. }
  destruct (IH _ Hrb Hroot) as (n & Hn & Hc & Hj).
  destruct f as [a [] k sb|a [] sb k]; simpl in Hn, Hj |- *.
  - destruct Hn as (? & ? & ? & ?). destruct Hj as [[]|Hj].
    exists n. split_and!; auto.
  - destruct n as [|n]; [done|]. destruct Hn. exists n. split_and!; auto.
  - destruct Hn as (? & ? & ? & ?). destruct Hj as [[]|Hj].
    exists n. split_and!; auto.
  - destruct n as [|n]; [done|]. destruct Hn. exists n. split_and!; auto.
Qed.

Lemma rb_blacken t n : rb t n → ∃ m, rb (blacken t) m.
Proof.
  destruct t as [|a [] l k r]; simpl; [eauto| |eauto].
  intros (_ & _ & ? & ?). exists (S n). done.
Qed.

(** ** The fix-up loop as a whole *)

Lemma uncle_cases t :
  root_black t ∨ ∃ u ul uk ur, t = Node u COLOR_RED ul uk ur.
Proof. destruct t as [|u [] ul uk ur]; simpl; eauto 10. Qed.

Lemma InsertFixUp_loop_spec k :
  ∀ ctx, (length ctx ≤ k)%nat →
  ∀ s n tl kn tr h fuel,
    abs s (plug ctx (Node n COLOR_RED tl kn tr)) →
    rb (Node n COLOR_RED tl kn tr) h → ctx_rb ctx h →
    (length ctx < fuel)%nat →
    ∃ s' T',
      InsertFixUp_loop fuel (Some n) s = Ok tt s'
      ∧ abs s' T'
      ∧ addrs T' = addrs (plug ctx (Node n COLOR_RED tl kn tr))
      ∧ keys T' = keys (plug ctx (Node n COLOR_RED tl kn tr))
      ∧ (∃ m, rb T' m)
      ∧ numItems (this s') = numItems (this s)
      ∧ unchanged_out (plug ctx (Node n COLOR_RED tl kn tr)) (mem s) (mem s').
Proof.
  induction k as [k IH] using lt_wf_ind.
  intros ctx Hlen s n tl kn tr h fuel Habs Hrb Hctx Hfuel.
  set (t := Node n COLOR_RED tl kn tr) in *.
  destruct fuel as [|fuel]; [lia|].
  destruct ctx as [|pf ctx].
  { exists s, t. split_and!; eauto using unchanged_out_refl.
    eapply fixup_exit_root, Habs. }
  destruct (f_color pf) eqn:Hpc; cycle 1.
  { exists s, (plug (pf :: ctx) t).
    split_and!; eauto using unchanged_out_refl.
    - by eapply fixup_exit_black.
    - eapply plug_rb; [exact Hrb|exact Hctx|]. right; left. exact Hpc. }
  simpl in Hctx. rewrite Hpc in Hctx.
  destruct Hctx as (Hsb & Hrsb & Hhb & Hctx).
  destruct ctx as [|gf rest]; [done|].
  simpl in Hhb, Hctx. rewrite Hhb in Hctx. destruct Hctx as (Hut & Hctx).
  simpl in Hfuel, Hlen. destruct fuel as [|fuel]; [lia|].
  destruct Hrb as (Hrtl & Hrtr & Htl & Htr).
  destruct (uncle_cases (f_sib gf)) as [Hu|(u & ul & uk & ur & Hu)].
  - (* uncle black or absent *)
    destruct gf as [g cg kg ut|g cg ut kg], pf as [p cp kp sb|p cp sb kp];
      simpl in Hpc, Hhb, Hu, Hsb, Hrsb, Hut; subst cp cg.
    + destruct (fixup_outer_L _ _ _ _ _ _ _ _ _ _ _ _ _ _ fuel Hu Habs)
        as (s' & Hrun & Habs' & Hnum & Hout).
      eexists s', _. split_and!; [exact Hrun|exact Habs'| | | |done|done].
      * simpl. apply addrs_plug_congr. simpl.
        repeat (rewrite <- app_assoc; simpl). reflexivity.
      * simpl. apply keys_plug_congr. simpl.
        repeat (rewrite <- app_assoc; simpl). reflexivity.
      * simpl. eapply (plug_rb rest _ (S h)); [|done|by left]. simpl. done.
    + destruct (fixup_inner_L _ _ _ _ _ _ _ _ _ _ _ _ _ _ fuel Hu Habs)
        as (s' & Hrun & Habs' & Hnum & Hout).
      eexists s', _. split_and!; [exact Hrun|exact Habs'| | | |done|done].
      * simpl. apply addrs_plug_congr. simpl.
        repeat (rewrite <- app_assoc; simpl). reflexivity.
      * simpl. apply keys_plug_congr. simpl.
        repeat (rewrite <- app_assoc; simpl). reflexivity.
      * simpl. eapply (plug_rb rest _ (S h)); [|done|by left]. simpl. done.
    + destruct (fixup_inner_R _ _ _ _ _ _ _ _ _ _ _ _ _ _ fuel Hu Habs)
        as (s' & Hrun & Habs' & Hnum & Hout).
      eexists s', _. split_and!; [exact Hrun|exact Habs'| | | |done|done].
      * simpl. apply addrs_plug_congr. simpl.
        repeat (rewrite <- app_assoc; simpl). reflexivity.
      * simpl. apply keys_plug_congr. simpl.
        repeat (rewrite <- app_assoc; simpl). reflexivity.
      * simpl. eapply (plug_rb rest _ (S h)); [|done|by left]. simpl. done.
    + destruct (fixup_outer_R _ _ _ _ _ _ _ _ _ _ _ _ _ _ fuel Hu Habs)
        as (s' & Hrun & Habs' & Hnum & Hout).
      eexists s', _. split_and!; [exact Hrun|exact Habs'| | | |done|done].
      * simpl. apply addrs_plug_congr. simpl.
        repeat (rewrite <- app_assoc; simpl). reflexivity.
      * simpl. apply keys_plug_congr. simpl.
        repeat (rewrite <- app_assoc; simpl). reflexivity.
      * simpl. eapply (plug_rb rest _ (S h)); [|done|by left]. simpl. done.
  - (* uncle red *)
    destruct (fixup_uncle_red s rest pf gf n COLOR_RED tl kn tr u ul uk ur
                (S fuel) Hpc Hu Habs) as (s1 & Hrun & Habs1 & Hthis & Hout).
    rewrite Hu in Hut. simpl in Hut. destruct Hut as (Hrul & Hrur & Hul & Hur).
    destruct gf as [g cg kg ut|g cg ut kg], pf as [p cp kp sb|p cp sb kp];
      simpl in Hpc, Hhb, Hu, Hsb, Hrsb; subst cp cg ut; simpl in Habs1.
    all: assert (length rest < k)%nat as Hlt by lia.
    all: destruct (IH (length rest) Hlt rest (Nat.le_refl _) s1 g
                     _ _ _ (S h) (S fuel) Habs1)
        as (s' & T' & Hrun' & Habs' & Haddrs & Hkeys & Hrb' & Hnum & Hout');
      [ |exact Hctx|lia|].
    all: try (simpl; split_and!; done).
    all: exists s', T'; split_and!;
      [ by rewrite Hrun | done
      | rewrite Haddrs; simpl; apply addrs_plug_congr; reflexivity
      | rewrite Hkeys; simpl; apply keys_plug_congr; reflexivity
      | done
      | by rewrite Hnum, Hthis
      | eapply unchanged_out_trans; [|exact Hout|exact Hout'];
        simpl; apply addrs_plug_congr; reflexivity ].
Qed.

(** ** Search-tree order *)

Lemma bst_Node a c l k r :
  bst (Node a c l k r) ↔
  bst l ∧ bst r ∧ (∀ x, x ∈ keys l → x < k) ∧ (∀ y, y ∈ keys r → k < y).
Proof.
  unfold bst. simpl. rewrite StronglySorted_app, StronglySorted_cons, Forall_forall.
  split.
  - intros (H1 & H2 & H3 & H4). split_and!; [done..| |done].
    intros x Hx. apply (H1 x k); set_solver.
  - intros (H1 & H2 & H3 & H4). split_and!; [|done..].
    intros x1 x2 Hx1 [->|Hx2]%elem_of_cons; [by apply H3|].
    etrans; [by apply H3|by apply H4].
Qed.

(** ** Get and Contains *)

Lemma Get_loop_spec s d t par fuel :
  rep (mem s) par t → bst t → (height t ≤ fuel)%nat →
  ∃ p, Get_loop fuel d (ptr_of t) s = Ok p s ∧ (p ≠ None ↔ d ∈ keys t).
Proof.
  revert par fuel. induction t as [|a c l IHl k r IHr]; intros par fuel Hrep Hbst Hf.
  { exists None. destruct fuel; simpl; split; try done; set_solver. }
  simpl in Hrep. destruct Hrep as ([b Hb] & Hl & Hr).
  apply bst_Node in Hbst as (Hbl & Hbr & Hlt & Hgt).
  destruct fuel as [|fuel]; [simpl in Hf; lia|]. simpl in Hf.
  cbn [Get_loop ptr_of]. unfold_ops. hsimp.
  case_bool_decide as Hdk; [subst d|].
  { exists (Some a). split; [done|]. simpl. set_solver. }
  hsimp. case_bool_decide as Hlk; hsimp.
  - destruct (IHl (Some a) fuel Hl Hbl ltac:(lia)) as (p & Hp & Hiff).
    exists p. split; [done|]. rewrite Hiff. simpl.
    rewrite elem_of_app, elem_of_cons. split; [auto|].
    intros [?|[?|Hd]]; [done..|]. specialize (Hgt _ Hd). lia.
  - destruct (IHr (Some a) fuel Hr Hbr ltac:(lia)) as (p & Hp & Hiff).
    exists p. split; [done|]. rewrite Hiff. simpl.
    rewrite elem_of_app, elem_of_cons. split; [auto|].
    intros [Hd|[?|?]]; [|done..]. specialize (Hlt _ Hd). lia.
Qed.

Lemma Contains_spec s d t fuel :
  abs s t → bst t → (height t ≤ fuel)%nat →
  Contains fuel d s = Ok (bool_decide (d ∈ keys t)) s.
Proof.
  intros (Hrep & Hroot & _) Hbst Hf.
  destruct (Get_loop_spec s d t None fuel Hrep Hbst Hf) as (p & Hp & Hiff).
  unfold Contains, Get. unfold_ops. rewrite Hroot, Hp. do 2 f_equal.
  apply bool_decide_ext. done.
Qed.

(** ** BasicInsert *)

Lemma plug_app c1 c2 t : plug (c1 ++ c2) t = plug c2 (plug c1 t).
Proof. revert t. induction c1 as [|f c1 IH]; intros t; simpl; [done|apply IH]. Qed.

Lemma BasicInsert_loop_spec s a na k sub par prev fuel :
  mem s !! a = Some na → data na = k →
  rep (mem s) par sub → (height sub ≤ fuel)%nat →
  ∃ ctx, sub = plug ctx Leaf ∧ path_ok k ctx
    ∧ BasicInsert_loop fuel (Some a) (ptr_of sub) prev s
      = Ok (match ctx with [] => prev | f :: _ => Some (f_addr f) end) s.
Proof.
  intros Ha Hk. revert par prev fuel.
  induction sub as [|x c l IHl kx r IHr]; intros par prev fuel Hrep Hf.
  { exists []. split_and!; [done|constructor|by destruct fuel]. }
  simpl in Hrep. destruct Hrep as ([b Hb] & Hl & Hr).
  destruct fuel as [|fuel]; [simpl in Hf; lia|]. simpl in Hf.
  cbn [BasicInsert_loop ptr_of]. unfold_ops. hsimp. rewrite Hk.
  case_bool_decide as Hlt; hsimp.
  - destruct (IHl (Some x) (Some x) fuel Hl ltac:(lia)) as (ctx & -> & Hp & Hrun).
    exists (ctx ++ [HoleL x c kx r]). split_and!.
    + by rewrite plug_app.
    + apply Forall_app. split; [done|]. by repeat constructor.
    + rewrite Hrun. by destruct ctx.
  - destruct (IHr (Some x) (Some x) fuel Hr ltac:(lia)) as (ctx & -> & Hp & Hrun).
    exists (ctx ++ [HoleR x c l kx]). split_and!.
    + by rewrite plug_app.
    + apply Forall_app. split; [done|]. by repeat constructor.
    + rewrite Hrun. by destruct ctx.
Qed.

Lemma BasicInsert_spec s T a k b fuel :
  abs s T → T ≠ Leaf →
  mem s !! a = Some (mkNode k COLOR_RED None None None b) →
  a ∉ addrs T → (height T ≤ fuel)%nat →
  ∃ s' ctx,
    BasicInsert fuel (Some a) s = Ok tt s'
    ∧ T = plug ctx Leaf ∧ path_ok k ctx
    ∧ abs s' (plug ctx (Node a COLOR_RED Leaf k Leaf))
    ∧ this s' = this s
    ∧ unchanged_out (plug ctx (Node a COLOR_RED Leaf k Leaf)) (mem s) (mem s').
Proof.
  intros (Hrep & Hroot & Hnd) HT Ha Hna Hf.
  destruct (BasicInsert_loop_spec s a _ k T None None fuel Ha eq_refl Hrep Hf)
    as (ctx & -> & Hp & Hrun).
  destruct ctx as [|f ctx]; [done|]. clear HT.
  apply rep_plug in Hrep as [_ Hctx].
  rewrite addrs_plug in Hnd, Hna.
  unfold BasicInsert. unfold_ops. rewrite Hroot, Hrun.
  apply Forall_cons in Hp as [Hpf Hp'].
  assert (path_ok k (f :: ctx)) as Hp by by constructor.
  unfold abs. setoid_rewrite rep_plug. setoid_rewrite addrs_plug.
  destruct f as [x c kx r|x c l kx]; simpl in Hctx, Hna, Hnd;
    split_facts; destruct_ex; hsimp.
  - eexists _, (HoleL x c kx r :: ctx). split; [reflexivity|]. hsimp. simpl.
    split_and!; try done; try solve_cell; try solve_frame; try solve_root.
    + repeat first [rewrite NoDup_cons | rewrite not_elem_of_cons
                   | rewrite not_elem_of_app | rewrite NoDup_app_disj].
      split_and!; try done; try solve_ne.
    + solve_unchanged_out.
  - eexists _, (HoleR x c l kx :: ctx). split; [reflexivity|]. hsimp. simpl.
    split_and!; try done; try solve_cell; try solve_frame; try solve_root.
    + repeat first [rewrite NoDup_cons | rewrite not_elem_of_cons
                   | rewrite not_elem_of_app | rewrite NoDup_app_disj].
      split_and!; try done; try solve_ne.
    + solve_unchanged_out.
Qed.

Lemma keys_plug_elem ctx t x : x ∈ keys t → x ∈ keys (plug ctx t).
Proof.
  revert t. induction ctx as [|f ctx IH]; intros t Hx; simpl; [done|].
  apply IH. destruct f; simpl; set_solver.
Qed.

Lemma bst_plug_inv ctx t : bst (plug ctx t) → bst t.
Proof.
  revert t. induction ctx as [|f ctx IH]; intros t H; simpl in H; [done|].
  apply IH in H. destruct f; apply bst_Node in H; tauto.
Qed.

(** Filling the hole found by the search with a key that was absent
    keeps the order, and adds exactly that key. *)
Lemma bst_plug_insert k ctx t t' :
  path_ok k ctx → keys t' ≡ₚ k :: keys t → bst t' →
  bst (plug ctx t) → k ∉ keys (plug ctx t) →
  bst (plug ctx t') ∧ keys (plug ctx t') ≡ₚ k :: keys (plug ctx t).
Proof.
  revert t t'. induction ctx as [|f ctx IH]; intros t t' Hp Hk Ht' Hb Hnk;
    simpl in *; [done|].
  apply Forall_cons in Hp as [Hf Hp].
  assert (∀ x, x ∈ keys t' ↔ x = k ∨ x ∈ keys t) as Hin.
  { intros x. rewrite Hk. set_solver. }
  pose proof (bst_plug_inv _ _ Hb) as Hb1.
  apply (IH (plug1 f t)); [done| | |done|done].
  - destruct f; simpl; rewrite Hk; solve_Permutation.
  - destruct f as [a c kk r|a c l kk]; simpl in *;
      apply bst_Node in Hb1 as (H1 & H2 & H3 & H4); apply bst_Node;
      split_and!; try done.
    + intros x [->|Hx]%Hin; auto.
    + intros x [->|Hx]%Hin; [|auto].
      assert (kk ≠ k); [|lia].
      intros ->. apply Hnk, keys_plug_elem. simpl. set_solver.
Qed.

Lemma height_plug ctx t : (length ctx + height t ≤ height (plug ctx t))%nat.
Proof.
  revert t. induction ctx as [|f ctx IH]; intros t; simpl; [done|].
  etrans; [|apply IH]. destruct f; simpl; lia.
Qed.

Lemma height_le_size t : (height t ≤ length (keys t))%nat.
Proof.
  induction t as [|a c l IHl k r IHr]; simpl; [done|].
  rewrite length_app. simpl. lia.
Qed.

Lemma rep_in_dom h par t x : rep h par t → x ∈ addrs t → is_Some (h !! x).
Proof.
  revert par. induction t as [|a c l IHl k r IHr]; intros par; simpl.
  { intros _ H. by apply elem_of_nil in H. }
  intros ([b Hb] & Hl & Hr).
  rewrite elem_of_app, elem_of_cons. intros [?|[->|?]]; eauto.
Qed.

Lemma addrs_blacken t : addrs (blacken t) = addrs t.
Proof. by destruct t. Qed.
Lemma keys_blacken t : keys (blacken t) = keys t.
Proof. by destruct t. Qed.

(** [root->color = COLOR_BLACK] *)
Lemma root_black_spec s T :
  abs s T → T ≠ Leaf →
  ∃ s', (let* r := get_root in put set_color r COLOR_BLACK) s = Ok tt s'
    ∧ abs s' (blacken T) ∧ this s' = this s
    ∧ unchanged_out T (mem s) (mem s').
Proof.
  intros (Hrep & Hroot & Hnd) HT. destruct T as [|a c l k r]; [done|].
  simpl in Hrep, Hroot. destruct_ex. nodup_split Hnd.
  unfold_ops. rewrite Hroot. hsimp.
  eexists. split; [reflexivity|]. unfold abs. hsimp. simpl.
  split_and!; try done; try solve_cell; try solve_frame.
  - rewrite NoDup_app_disj, NoDup_cons. split_and!; try done.
    by apply disj_cons_r.
  - solve_unchanged_out.
Qed.

(** ** Insert *)

Lemma fresh_not_in h par t :
  rep h par t → fresh (dom h) ∉ addrs t.
Proof.
  intros Hrep Hin. apply (rep_in_dom _ _ _ _ Hrep) in Hin.
  apply elem_of_dom in Hin. by apply is_fresh in Hin.
Qed.

Lemma fresh_lookup (h : gmap addr RBTNode) : h !! fresh (dom h) = None.
Proof. apply not_elem_of_dom, is_fresh. Qed.

Lemma Insert_empty s k fuel :
  tree_inv s Leaf →
  ∃ s', Insert fuel k s = Ok tt s'
    ∧ tree_inv s' (Node (fresh (dom (mem s))) COLOR_BLACK Leaf k Leaf)
    ∧ preserves_others Leaf (mem s) (mem s').
Proof.
  intros ((Hrep & Hroot & Hnd) & Hbst & Hrb & Hnum). simpl in Hroot.
  unfold Insert, new_RBTNode. unfold_ops. rewrite Hroot. hsimp.
  eexists. split; [reflexivity|]. unfold tree_inv, abs. hsimp. simpl.
  split_and!; try done; try solve_cell.
  - repeat constructor. set_solver.
  - unfold bst. simpl. repeat constructor.
  - split; [done|]. by exists 1%nat.
  - rewrite Hnum. simpl. lia.
  - intros x _ Hx. rewrite !lookup_insert_ne; [done|..];
      intros <-; rewrite fresh_lookup in Hx; by destruct Hx.
Qed.

Lemma Insert_dup s t k fuel :
  tree_inv s t → (height t < fuel)%nat → k ∈ keys t →
  Insert fuel k s = Throw "Duplicate value." s.
Proof.
  intros (Habs & Hbst & Hrb & Hnum) Hf Hk.
  pose proof Habs as (Hrep & Hroot & Hnd).
  destruct t as [|r c tl kr tr]; [by apply elem_of_nil in Hk|].
  unfold Insert. unfold bind at 1. unfold get_root at 1. rewrite Hroot.
  cbn [ptr_of]. unfold bind at 1.
  rewrite (Contains_spec s k _ fuel Habs Hbst) by lia.
  by rewrite bool_decide_eq_true_2.
Qed.

Lemma Insert_new s t k fuel :
  tree_inv s t → t ≠ Leaf → (height t < fuel)%nat → k ∉ keys t →
  ∃ s' t', Insert fuel k s = Ok tt s'
    ∧ tree_inv s' t'
    ∧ keys t' ≡ₚ k :: keys t
    ∧ addrs t' ≡ₚ fresh (dom (mem s)) :: addrs t
    ∧ preserves_others t (mem s) (mem s').
Proof.
  intros (Habs & Hbst & (Hrootb & m & Hrb) & Hnum) HT Hf Hk.
  pose proof Habs as (Hrep & Hroot & Hnd).
  set (a := fresh (dom (mem s))).
  assert (a ∉ addrs t) as Hat by by eapply fresh_not_in.
  assert (mem s !! a = None) as Ha by apply fresh_lookup.
  unfold Insert. unfold bind at 1. unfold get_root at 1. rewrite Hroot.
  destruct (ptr_of t) as [r|] eqn:Hptr; [|by destruct t].
  unfold bind at 1.
  rewrite (Contains_spec s k _ fuel Habs Hbst) by lia.
  rewrite bool_decide_eq_false_2 by done.
  unfold InsertFixUp, new_RBTNode. unfold_ops. fold a. hsimp.
  (* the new node is in place; the old shape is untouched *)
  match goal with
  | |- context [BasicInsert _ _ ?s1] =>
      destruct (BasicInsert_spec s1 t a k false fuel)
        as (s2 & ctx & Hrun2 & Ht & Hpath & Habs2 & Hthis2 & Hout2)
  end.
  { split_and!; hsimp; [|by rewrite Hptr|done]. solve_frame. }
  { done. }
  { by hsimp. }
  { done. }
  { lia. }
  rewrite Hrun2. clear Hrun2.
  (* the fix-up loop *)
  destruct (rb_plug_inv ctx Leaf m) as (n0 & Hn0 & Hctx & _);
    [by rewrite <- Ht..|]. simpl in Hn0. subst n0.
  pose proof (height_plug ctx Leaf) as Hh. rewrite <- Ht in Hh.
  destruct (InsertFixUp_loop_spec (length ctx) ctx (Nat.le_refl _) s2 a
              Leaf k Leaf O fuel Habs2)
    as (s3 & T3 & Hrun3 & Habs3 & Haddrs3 & Hkeys3 & (m3 & Hrb3) & Hnum3 & Hout3);
    [done|done|lia|].
  rewrite Hrun3. clear Hrun3.
  assert (T3 ≠ Leaf) as HT3.
  { intros ->. simpl in Hkeys3. symmetry in Hkeys3.
    apply (f_equal length) in Hkeys3. simpl in Hkeys3.
    assert (k ∈ keys (plug ctx (Node a COLOR_RED Leaf k Leaf))) as Hin.
    { apply keys_plug_elem. simpl. set_solver. }
    destruct (keys (plug ctx (Node a COLOR_RED Leaf k Leaf))); [|done].
    by apply elem_of_nil in Hin. }
  destruct (root_black_spec s3 T3 Habs3 HT3)
    as (s4 & Hrun4 & Habs4 & Hthis4 & Hout4).
  unfold bind, get_root, put, with_mem in Hrun4. rewrite Hrun4. clear Hrun4.
  assert (blacken T3 ≠ Leaf) as HT4 by by destruct T3.
  destruct (root_black_spec s4 _ Habs4 HT4)
    as (s5 & Hrun5 & Habs5 & Hthis5 & Hout5).
  unfold bind, get_root, put, with_mem in Hrun5. rewrite Hrun5. clear Hrun5.
  assert (blacken (blacken T3) = blacken T3) as Hbb by by destruct T3.
  rewrite Hbb in Habs5.
  destruct (bst_plug_insert k ctx Leaf (Node a COLOR_RED Leaf k Leaf))
    as (Hbst' & Hperm); [done|done| |by rewrite <- Ht..|].
  { unfold bst. simpl. repeat constructor. }
  rewrite <- Ht in Hperm.
  eexists _, (blacken T3). split; [reflexivity|].
  destruct Habs5 as (Hrep5 & Hroot5 & Hnd5).
  unfold tree_inv, abs. hsimp. split_and!; try done.
  - unfold bst. by rewrite keys_blacken, Hkeys3.
  - split; [by destruct T3|]. by eapply rb_blacken.
  - hsimp. rewrite keys_blacken, Hkeys3, Hperm. simpl.
    rewrite Hthis5, Hthis4, Hnum3, Hthis2. simpl. rewrite Hnum. lia.
  - by rewrite keys_blacken, Hkeys3.
  - rewrite addrs_blacken, Haddrs3, addrs_plug. simpl.
    rewrite Ht, addrs_plug. simpl. done.
  - intros x Hx Hsome. hsimp.
    assert (x ≠ a) as Hxa.
    { intros ->. rewrite Ha in Hsome. by destruct Hsome. }
    assert (x ∉ addrs (plug ctx (Node a COLOR_RED Leaf k Leaf))) as Hx2.
    { rewrite addrs_plug. simpl. intros [->|Hin]%elem_of_cons; [done|].
      apply Hx. rewrite Ht, addrs_plug. done. }
    rewrite Hout5 by by rewrite addrs_blacken, Haddrs3.
    rewrite Hout4 by by rewrite Haddrs3.
    rewrite Hout3, Hout2 by done. hsimp. done.
Qed.

(** ** Traversal renderings *)

Lemma append_assoc (s1 s2 s3 : string) :
  (s1 +:+ s2) +:+ s3 = s1 +:+ s2 +:+ s3.
Proof.
  induction s1 as [|c s1 IH]; [done|].
  change (String c ((s1 +:+ s2) +:+ s3) = String c (s1 +:+ s2 +:+ s3)).
  by rewrite IH.
Qed.

Lemma render_app l1 l2 : render (l1 ++ l2) = render l1 +:+ render l2.
Proof.
  induction l1 as [|x l1 IH]; simpl; [done|].
  by rewrite IH, append_assoc.
Qed.

Lemma infix_string_render t : infix_string t = render (nodes t).
Proof.
  induction t as [|a c l IHl k r IHr]; simpl; [done|].
  by rewrite render_app, IHl, IHr.
Qed.

Lemma keys_nodes t : keys t = (nodes t).*2.
Proof.
  induction t as [|a c l IHl k r IHr]; simpl; [done|].
  by rewrite fmap_app, IHl, IHr.
Qed.

Lemma GetNodeString_spec s a n :
  mem s !! a = Some n →
  GetNodeString (Some a) s = Ok (node_string (color n) (data n)) s.
Proof.
  intros H. unfold GetNodeString, GetColorString. unfold_ops. by hsimp.
Qed.

Lemma ToInfixString_spec s par t fuel :
  rep (mem s) par t → (height t ≤ fuel)%nat →
  ToInfixString fuel (ptr_of t) s = Ok (infix_string t) s.
Proof.
  revert par fuel. induction t as [|a c l IHl k r IHr]; intros par fuel Hrep Hf.
  { by destruct fuel. }
  simpl in Hrep, Hf. destruct Hrep as ([b Hb] & Hl & Hr).
  destruct fuel as [|fuel]; [lia|].
  cbn [ToInfixString ptr_of]. unfold bind, get. hsimp.
  rewrite (IHl (Some a)) by (done || lia).
  erewrite GetNodeString_spec by done. hsimp.
  by rewrite (IHr (Some a)) by (done || lia).
Qed.

Lemma ToPrefixString_spec s par t fuel :
  rep (mem s) par t → (height t ≤ fuel)%nat →
  ToPrefixString fuel (ptr_of t) s = Ok (prefix_string t) s.
Proof.
  revert par fuel. induction t as [|a c l IHl k r IHr]; intros par fuel Hrep Hf.
  { by destruct fuel. }
  simpl in Hrep, Hf. destruct Hrep as ([b Hb] & Hl & Hr).
  destruct fuel as [|fuel]; [lia|].
  cbn [ToPrefixString ptr_of]. unfold bind, get.
  erewrite GetNodeString_spec by done. hsimp.
  rewrite (IHl (Some a)) by (done || lia). hsimp.
  by rewrite (IHr (Some a)) by (done || lia).
Qed.

Lemma ToPostfixString_spec s par t fuel :
  rep (mem s) par t → (height t ≤ fuel)%nat →
  ToPostfixString fuel (ptr_of t) s = Ok (postfix_string t) s.
Proof.
  revert par fuel. induction t as [|a c l IHl k r IHr]; intros par fuel Hrep Hf.
  { by destruct fuel. }
  simpl in Hrep, Hf. destruct Hrep as ([b Hb] & Hl & Hr).
  destruct fuel as [|fuel]; [lia|].
  cbn [ToPostfixString ptr_of]. unfold bind, get. hsimp.
  rewrite (IHl (Some a)) by (done || lia). hsimp.
  rewrite (IHr (Some a)) by (done || lia).
  by erewrite GetNodeString_spec by done.
Qed.

(** ** GetMin and GetMax *)

Lemma GetMin_loop_spec s par a c l k r fuel :
  rep (mem s) par (Node a c l k r) → (height l ≤ fuel)%nat →
  ∃ p nd, GetMin_loop fuel (Some a) s = Ok (Some p) s
    ∧ mem s !! p = Some nd
    ∧ head (keys (Node a c l k r)) = Some (data nd).
Proof.
  revert par a c k r fuel.
  induction l as [|a' c' l' IHl k' r' _]; intros par a c k r fuel Hrep Hf.
  - simpl in Hrep. destruct Hrep as ([b Hb] & _).
    exists a, (mkNode k c None (ptr_of r) par b).
    split_and!; [|done|by simpl]. destruct fuel; simpl; unfold_ops; by hsimp.
  - destruct Hrep as ([b Hb] & Hl & Hr).
    destruct fuel as [|fuel]; [simpl in Hf; lia|].
    destruct (IHl (Some a) a' c' k' r' fuel Hl) as (p & nd & Hrun & Hp & Hhd).
    { simpl in Hf. lia. }
    exists p, nd. split_and!; [|done|].
    + simpl in Hb. cbn [GetMin_loop]. unfold bind at 1. unfold get at 1.
      hsimp. exact Hrun.
    + change (keys (Node a c (Node a' c' l' k' r') k r))
        with (keys (Node a' c' l' k' r') ++ k :: keys r).
      rewrite head_app. by rewrite Hhd.
Qed.

Lemma GetMax_loop_spec s par a c l k r fuel :
  rep (mem s) par (Node a c l k r) → (height r ≤ fuel)%nat →
  ∃ p nd, GetMax_loop fuel (Some a) s = Ok (Some p) s
    ∧ mem s !! p = Some nd
    ∧ last (keys (Node a c l k r)) = Some (data nd).
Proof.
  revert par a c k l fuel.
  induction r as [|a' c' l' _ k' r' IHr]; intros par a c k l fuel Hrep Hf.
  - simpl in Hrep. destruct Hrep as ([b Hb] & _).
    exists a, (mkNode k c (ptr_of l) None par b).
    split_and!; [|done|].
    + destruct fuel; simpl; unfold_ops; by hsimp.
    + simpl. by rewrite last_snoc.
  - destruct Hrep as ([b Hb] & Hl & Hr).
    destruct fuel as [|fuel]; [simpl in Hf; lia|].
    destruct (IHr (Some a) a' c' k' l' fuel Hr) as (p & nd & Hrun & Hp & Hhd).
    { simpl in Hf. lia. }
    exists p, nd. split_and!; [|done|].
    + simpl in Hb. cbn [GetMax_loop]. unfold bind at 1. unfold get at 1.
      hsimp. exact Hrun.
    + change (keys (Node a c l k (Node a' c' l' k' r')))
        with (keys l ++ k :: keys (Node a' c' l' k' r')).
      rewrite last_app, last_cons. by rewrite Hhd.
Qed.

(** ** CopyOf *)

Lemma keys_erase t : keys (erase t) = keys t.
Proof. induction t; simpl; congruence. Qed.
Lemma infix_erase t : infix_string (erase t) = infix_string t.
Proof. induction t; simpl; congruence. Qed.
Lemma prefix_erase t : prefix_string (erase t) = prefix_string t.
Proof. induction t; simpl; congruence. Qed.
Lemma postfix_erase t : postfix_string (erase t) = postfix_string t.
Proof. induction t; simpl; congruence. Qed.
Lemma root_black_erase t : root_black (erase t) ↔ root_black t.
Proof. by destruct t. Qed.
Lemma rb_erase t n : rb (erase t) n ↔ rb t n.
Proof.
  revert n. induction t as [|a [] l IHl k r IHr]; intros n; simpl; [done|..].
  - by rewrite !root_black_erase, IHl, IHr.
  - destruct n; [done|]. by rewrite IHl, IHr.
Qed.

(** [if (child != nullptr) child->parent = copy] on a freshly copied
    subtree. *)
Lemma adopt_spec s cp t :
  rep (mem s) None t → NoDup (addrs t) →
  ∃ s', match ptr_of t with
        | Some _ => put set_parent (ptr_of t) (Some cp)
        | None => ret tt
        end s = Ok tt s'
    ∧ rep (mem s') (Some cp) t ∧ this s' = this s
    ∧ unchanged_out t (mem s) (mem s').
Proof.
  intros Hrep Hnd. destruct t as [|a c l k r]; simpl in *.
  { exists s. split_and!; [done..|]. apply unchanged_out_refl. }
  destruct_ex. split_facts. unfold_ops. hsimp.
  eexists. split; [reflexivity|]. hsimp.
  split_and!; try done; try solve_cell; try solve_frame.
  solve_unchanged_out.
Qed.

Lemma CopyOf_spec t :
  ∀ par s fuel, rep (mem s) par t → (height t ≤ fuel)%nat →
  ∃ s' t', CopyOf fuel (ptr_of t) s = Ok (ptr_of t') s'
    ∧ rep (mem s') None t' ∧ erase t' = erase t ∧ NoDup (addrs t')
    ∧ (∀ x, x ∈ addrs t' → mem s !! x = None)
    ∧ (∀ x, is_Some (mem s !! x) → mem s' !! x = mem s !! x)
    ∧ this s' = this s.
Proof.
  induction t as [|a c l IHl k r IHr]; intros par s fuel Hrep Hf.
  { exists s, Leaf. split_and!; try done.
    - by destruct fuel.
    - constructor.
    - intros x Hx. by apply elem_of_nil in Hx. }
  destruct fuel as [|fuel]; [simpl in Hf; lia|]. simpl in Hf.
  simpl in Hrep. destruct Hrep as ([b Hb] & Hl & Hr).
  set (cp := fresh (dom (mem s))).
  assert (mem s !! cp = None) as Hcp by apply fresh_lookup.
  assert (cp ≠ a) as Hcpa by (intros E; rewrite E in Hcp; congruence).
  assert (cp ∉ addrs l) as Hcpl by by eapply fresh_not_in.
  assert (cp ∉ addrs r) as Hcpr by by eapply fresh_not_in.
  cbn [CopyOf ptr_of]. unfold new_RBTNode. unfold_ops. fold cp. hsimp.
  (* the left subtree *)
  match goal with
  | |- context [CopyOf fuel (ptr_of l) ?s1] =>
      destruct (IHl (Some a) s1 fuel)
        as (s2 & l' & Hrun2 & Hrep2 & Her2 & Hnd2 & Hfr2 & Hpres2 & Hthis2);
      [ hsimp; solve_frame | lia | ]
  end.
  rewrite Hrun2. clear Hrun2. cbn [mem this] in Hfr2, Hpres2, Hthis2.
  assert (mem s2 !! cp = Some (mkNode k c None None None b)) as Hcp2.
  { rewrite Hpres2; hsimp; [done|eauto]. }
  assert (mem s2 !! a = Some (mkNode k c (ptr_of l) (ptr_of r) par b)) as Ha2.
  { rewrite Hpres2; hsimp; [done|eauto]. }
  assert (cp ∉ addrs l') as Hcpl'.
  { intros Hin. apply Hfr2 in Hin. revert Hin. by hsimp. }
  hsimp.
  (* the right subtree *)
  match goal with
  | |- context [CopyOf fuel (ptr_of r) ?s1] =>
      destruct (IHr (Some a) s1 fuel)
        as (s3 & r' & Hrun3 & Hrep3 & Her3 & Hnd3 & Hfr3 & Hpres3 & Hthis3);
      [ hsimp | lia | ]
  end.
  { eapply rep_ext; [|exact Hr]. intros x Hx.
    assert (x ≠ cp) by (by intros ->).
    pose proof (rep_in_dom _ _ _ _ Hr Hx) as Hsome.
    rewrite lookup_insert_ne by done.
    rewrite Hpres2; rewrite !lookup_insert_ne by done; done. }
  rewrite Hrun3. clear Hrun3. cbn [mem this] in Hfr3, Hpres3, Hthis3.
  assert (mem s3 !! cp = Some (mkNode k c (ptr_of l') None None b)) as Hcp3.
  { rewrite Hpres3; hsimp; [done|eauto]. }
  assert (cp ∉ addrs r') as Hcpr'.
  { intros Hin. apply Hfr3 in Hin. revert Hin. by hsimp. }
  assert (disj (addrs l') (addrs r')) as Hlr.
  { intros x Hxl Hxr. apply Hfr3 in Hxr.
    pose proof (rep_in_dom _ _ _ _ Hrep2 Hxl) as [nx Hnx].
    rewrite lookup_insert_ne in Hxr by (by intros ->). congruence. }
  assert (rep (mem s3) None l') as Hrepl3.
  { eapply rep_ext; [|exact Hrep2]. intros x Hx.
    pose proof (rep_in_dom _ _ _ _ Hrep2 Hx) as Hsome.
    assert (x ≠ cp) by (by intros ->).
    rewrite Hpres3; rewrite lookup_insert_ne by done; done. }
  hsimp.
  (* the parent links of the two copies *)
  match goal with
  | |- context [match ptr_of l' with _ => _ end ?s1] =>
      destruct (adopt_spec s1 cp l')
        as (s4 & Hrun4 & Hrep4 & Hthis4 & Hout4);
      [ hsimp; solve_frame | done | ]
  end.
  unfold put, ret, with_mem in Hrun4. rewrite Hrun4. clear Hrun4.
  cbn [mem this] in Hout4, Hthis4.
  assert (mem s4 !! cp = Some (mkNode k c (ptr_of l') (ptr_of r') None b)) as Hcp4.
  { rewrite Hout4 by done. by hsimp. }
  hsimp.
  match goal with
  | |- context [match ptr_of r' with _ => _ end ?s1] =>
      destruct (adopt_spec s1 cp r')
        as (s5 & Hrun5 & Hrep5 & Hthis5 & Hout5); [ | done | ]
  end.
  { eapply rep_ext; [|exact Hrep3]. intros x Hx.
    rewrite Hout4 by (intros Hxl; by eapply Hlr).
    rewrite lookup_insert_ne; [done|]. by intros ->. }
  unfold put, ret, with_mem in Hrun5. rewrite Hrun5. clear Hrun5.
  exists s5, (Node cp c l' k r'). split_and!.
  - done.
  - simpl. split_and!; [|eapply rep_ext; [|exact Hrep4]|done].
    + exists b. by rewrite Hout5.
    + intros x Hx. apply Hout5. intros Hxr. by eapply Hlr.
  - simpl. by rewrite Her2, Her3.
  - simpl. apply NoDup_app_disj. split_and!; [done| |by constructor].
    apply disj_cons_r. done.
  - simpl. intros x [Hx|[->|Hx]%elem_of_cons]%elem_of_app; [|done|].
    + pose proof (Hfr2 x Hx) as Hn. revert Hn.
      rewrite !lookup_insert_ne by (by intros ->). done.
    + pose proof (Hfr3 x Hx) as Hn.
      rewrite lookup_insert_ne in Hn by (by intros ->).
      destruct (mem s !! x) eqn:E; [|done].
      rewrite Hpres2 in Hn; revert Hn;
        rewrite !lookup_insert_ne by (by intros ->); rewrite E; eauto.
  - intros x Hsome.
    assert (x ≠ cp) by (intros ->; rewrite Hcp in Hsome; by destruct Hsome).
    assert (is_Some (mem s2 !! x)) as Hs2.
    { rewrite Hpres2; rewrite !lookup_insert_ne by done; done. }
    assert (x ∉ addrs l') as Hxl.
    { intros Hin. apply Hfr2 in Hin.
      rewrite !lookup_insert_ne in Hin by done. rewrite Hin in Hsome.
      by destruct Hsome. }
    assert (x ∉ addrs r') as Hxr.
    { intros Hin. apply Hfr3 in Hin.
      rewrite !lookup_insert_ne in Hin by done. rewrite Hin in Hs2.
      by destruct Hs2. }
    rewrite Hout5, Hout4 by done. rewrite lookup_insert_ne by done.
    rewrite Hpres3; rewrite lookup_insert_ne by done; [|done].
    rewrite Hpres2; rewrite !lookup_insert_ne by done; done.
  - by rewrite Hthis5, Hthis4, Hthis3, Hthis2.
Qed.

(** ** Constructors *)

Lemma tree_inv_Leaf h n :
  tree_inv (mkState h (mkTree None n)) Leaf ↔ n = 0%N.
Proof.
  unfold tree_inv, abs, bst, is_redblack. simpl. split; [tauto|].
  intros ->. split_and!; try done; try constructor. by exists O.
Qed.

Lemma RedBlackTree_default_spec s0 :
  ∃ s, RedBlackTree_default s0 = Ok tt s ∧ tree_inv s Leaf
    ∧ mem s = mem s0.
Proof.
  eexists. split; [reflexivity|]. split; [|done]. by apply tree_inv_Leaf.
Qed.

Lemma RedBlackTree_single_spec s0 k :
  ∃ s, RedBlackTree_single k s0 = Ok tt s
    ∧ tree_inv s (Node (fresh (dom (mem s0))) COLOR_BLACK Leaf k Leaf)
    ∧ (∀ x, is_Some (mem s0 !! x) → mem s !! x = mem s0 !! x).
Proof.
  unfold RedBlackTree_single, new_RBTNode. unfold_ops. hsimp.
  eexists. split; [reflexivity|]. unfold tree_inv, abs. hsimp. simpl.
  split_and!; try done; try solve_cell.
  - repeat constructor. set_solver.
  - unfold bst. simpl. repeat constructor.
  - split; [done|]. by exists 1%nat.
  - intros x Hx. rewrite !lookup_insert_ne; [done|..];
      intros <-; rewrite fresh_lookup in Hx; by destruct Hx.
Qed.

Lemma is_redblack_erase t t' :
  erase t' = erase t → is_redblack t → is_redblack t'.
Proof.
  intros E (Hr & n & Hn). split.
  - apply root_black_erase. rewrite E. by apply root_black_erase.
  - exists n. apply rb_erase. rewrite E. by apply rb_erase.
Qed.

Lemma RedBlackTree_copy_spec s0 rbt t fuel :
  tree_inv (mkState (mem s0) rbt) t → (height t ≤ fuel)%nat →
  ∃ s t', RedBlackTree_copy fuel rbt s0 = Ok tt s
    ∧ tree_inv s t' ∧ erase t' = erase t
    ∧ numItems (this s) = numItems rbt
    ∧ (∀ x, x ∈ addrs t' → mem s0 !! x = None)
    ∧ (∀ x, is_Some (mem s0 !! x) → mem s !! x = mem s0 !! x).
Proof.
  intros ((Hrep & Hroot & Hnd) & Hbst & Hrb & Hnum) Hf. simpl in *.
  destruct (CopyOf_spec t None s0 fuel Hrep Hf)
    as (s1 & t' & Hrun & Hrep' & Her & Hnd' & Hfr & Hpres & Hthis).
  unfold RedBlackTree_copy. unfold_ops. rewrite Hroot, Hrun.
  eexists _, t'. split; [reflexivity|]. unfold tree_inv, abs. hsimp.
  split_and!; try done.
  - unfold bst. by rewrite <- keys_erase, Her, keys_erase.
  - by eapply is_redblack_erase.
  - by rewrite Hnum, <- (keys_erase t'), Her, keys_erase.
Qed.

(** ** The heap seen from the root *)

Lemma reach_addrs h par t a :
  rep h par t → (reach h (ptr_of t) a ↔ a ∈ addrs t).
Proof.
  revert par. induction t as [|x c l IHl k r IHr]; intros par Hrep; simpl.
  { split; [inversion 1|]. intros H. by apply elem_of_nil in H. }
  simpl in Hrep. destruct Hrep as ([b Hb] & Hl & Hr).
  rewrite elem_of_app, elem_of_cons.
  rewrite <- (IHl _ Hl), <- (IHr _ Hr). split.
  - inversion 1 as [? ? Hx|? ? ? Hx Hre|? ? ? Hx Hre]; subst;
      rewrite Hb in Hx; injection Hx as <-; simpl in *; auto.
  - intros [H|[->|H]].
    + eapply reach_left; [exact Hb|done].
    + eapply reach_here; exact Hb.
    + eapply reach_right; [exact Hb|done].
Qed.

Lemma addrs_split a t :
  a ∈ addrs t → ∃ ctx c l k r, t = plug ctx (Node a c l k r).
Proof.
  induction t as [|x c l IHl k r IHr]; simpl.
  { intros H. by apply elem_of_nil in H. }
  rewrite elem_of_app, elem_of_cons. intros [H|[->|H]].
  - destruct (IHl H) as (ctx & c' & l' & k' & r' & ->).
    exists (ctx ++ [HoleL x c k r]), c', l', k', r'. by rewrite plug_app.
  - by exists [], c, l, k, r.
  - destruct (IHr H) as (ctx & c' & l' & k' & r' & ->).
    exists (ctx ++ [HoleR x c l k]), c', l', k', r'. by rewrite plug_app.
Qed.

Lemma stored_keys s t k : abs s t → (stored s k ↔ k ∈ keys t).
Proof.
  intros (Hrep & Hroot & Hnd). unfold stored, node_of. rewrite Hroot.
  setoid_rewrite (reach_addrs _ _ _ _ Hrep). split.
  - intros (a & n & Ha & Hn & <-).
    apply addrs_split in Ha as (ctx & c & l & k' & r & ->).
    apply rep_plug in Hrep as [Hsub _]. destruct Hsub as ([b Hb] & _).
    rewrite Hb in Hn. injection Hn as <-. simpl.
    apply keys_plug_elem. simpl. set_solver.
  - clear Hroot Hnd. revert Hrep. generalize (@None addr).
    induction t as [|x c l IHl kx r IHr]; intros par Hrep; simpl.
    { intros H. by apply elem_of_nil in H. }
    destruct Hrep as ([b Hb] & Hl & Hr).
    rewrite elem_of_app, elem_of_cons. intros [H|[->|H]].
    + destruct (IHl _ Hl H) as (a & n & ? & ? & ?).
      exists a, n. rewrite elem_of_app. auto.
    + eexists x, _. rewrite elem_of_app, elem_of_cons. eauto.
    + destruct (IHr _ Hr H) as (a & n & ? & ? & ?).
      exists a, n. rewrite elem_of_app, elem_of_cons. auto.
Qed.

Lemma black_path_rb h par t n m :
  rep h par t → rb t m → black_path h (ptr_of t) n → n = m.
Proof.
  revert par n m. induction t as [|x c l IHl k r IHr]; intros par n m Hrep Hrb.
  { simpl in *. by inversion 1. }
  simpl in Hrep. destruct Hrep as ([b Hb] & Hl & Hr). simpl.
  inversion 1 as [|? ? ? Hx Hp|? ? ? Hx Hp]; subst;
    rewrite Hb in Hx; injection Hx as <-; simpl in *.
  - destruct c; simpl.
    + destruct Hrb as (_ & _ & Hrl & _). by eapply IHl.
    + destruct m as [|m]; [done|]. destruct Hrb as [Hrl _].
      f_equal. by eapply IHl.
  - destruct c; simpl.
    + destruct Hrb as (_ & _ & _ & Hrr). by eapply IHr.
    + destruct m as [|m]; [done|]. destruct Hrb as [_ Hrr].
      f_equal. by eapply IHr.
Qed.

Lemma rb_plug_sub ctx t m : rb (plug ctx t) m → ∃ n, rb t n.
Proof.
  revert t m. induction ctx as [|f ctx IH]; intros t m H; simpl in H; [eauto|].
  apply IH in H as [n H].
  destruct f as [a [] k sb|a [] sb k]; simpl in H.
  - destruct H as (_ & _ & ? & _). eauto.
  - destruct n; [done|]. destruct H. eauto.
  - destruct H as (_ & _ & _ & ?). eauto.
  - destruct n; [done|]. destruct H. eauto.
Qed.

Lemma tree_inv_height s t :
  tree_inv s t → (height t ≤ N.to_nat (numItems (this s)))%nat.
Proof.
  intros (_ & _ & _ & ->). rewrite Nat2N.id. apply height_le_size.
Qed.

Lemma Insert_spec s t k fuel :
  tree_inv s t → (height t < fuel)%nat →
  (k ∈ keys t → Insert fuel k s = Throw "Duplicate value." s)
  ∧ (k ∉ keys t → ∃ s' t', Insert fuel k s = Ok tt s'
       ∧ tree_inv s' t'
       ∧ keys t' ≡ₚ k :: keys t
       ∧ (∃ a, mem s !! a = None ∧ addrs t' ≡ₚ a :: addrs t)
       ∧ preserves_others t (mem s) (mem s')).
Proof.
  intros Hinv Hf. split; [by apply Insert_dup|]. intros Hk.
  destruct t as [|a c l kk r].
  - destruct (Insert_empty s k fuel Hinv) as (s' & Hrun & Hinv' & Hpres).
    eexists s', _. split_and!; [done..| |done].
    eexists. split; [apply fresh_lookup|done].
  - destruct (Insert_new s _ k fuel Hinv) as (s' & t' & ? & ? & ? & ? & ?);
      [done..|].
    exists s', t'. split_and!; [done..| |done].
    eexists. split; [apply fresh_lookup|done].
Qed.

(** ** More fuel changes no result *)

Lemma refines_refl {A} (o : outcome A) : refines o o.
Proof. by right. Qed.

Lemma refines_trans {A} (o1 o2 o3 : outcome A) :
  refines o1 o2 → refines o2 o3 → refines o1 o3.
Proof. intros [-> | ->] [-> | ->]; unfold refines; auto. Qed.

Lemma bind_refines {A B} (m m' : M A) (k k' : A → M B) s :
  refines (m s) (m' s) → (∀ a s1, refines (k a s1) (k' a s1)) →
  refines (bind m k s) (bind m' k' s).
Proof.
  intros [E|E] Hk; unfold bind; rewrite E; [by left|].
  destruct (m' s); [apply Hk|by right..].
Qed.

Ltac mono IH :=
  repeat first
    [ match goal with |- refines ?x ?x => apply refines_refl end
    | apply IH
    | apply bind_refines; [|intros]
    | match goal with
      | |- refines (match ?x with _ => _ end _) _ => destruct x
      end ].

(** One unfolding of each loop and recursion. *)
Lemma Get_loop_S fuel d curr :
  Get_loop (S fuel) d curr
  = ltac:(let t := eval cbn [Get_loop] in (Get_loop (S fuel) d curr) in exact t).
Proof. reflexivity. Qed.

Lemma BasicInsert_loop_S fuel node curr prev :
  BasicInsert_loop (S fuel) node curr prev
  = ltac:(let t := eval cbn [BasicInsert_loop] in
            (BasicInsert_loop (S fuel) node curr prev) in exact t).
Proof. reflexivity. Qed.

Lemma InsertFixUp_loop_S fuel node :
  InsertFixUp_loop (S fuel) node
  = ltac:(let t := eval cbn [InsertFixUp_loop] in
            (InsertFixUp_loop (S fuel) node) in exact t).
Proof. reflexivity. Qed.

Lemma CopyOf_S fuel node :
  CopyOf (S fuel) node
  = ltac:(let t := eval cbn [CopyOf] in (CopyOf (S fuel) node) in exact t).
Proof. reflexivity. Qed.

Lemma Get_loop_mono fuel d curr s :
  refines (Get_loop fuel d curr s) (Get_loop (S fuel) d curr s).
Proof.
  revert curr s. induction fuel as [|fuel IH]; intros curr s.
  { destruct curr; [by left|by right]. }
  rewrite (Get_loop_S (S fuel)), (Get_loop_S fuel). mono IH.
Qed.

Lemma BasicInsert_loop_mono fuel node curr prev s :
  refines (BasicInsert_loop fuel node curr prev s)
          (BasicInsert_loop (S fuel) node curr prev s).
Proof.
  revert curr prev s. induction fuel as [|fuel IH]; intros curr prev s.
  { destruct curr; [by left|by right]. }
  rewrite (BasicInsert_loop_S (S fuel)), (BasicInsert_loop_S fuel). mono IH.
Qed.

Lemma InsertFixUp_loop_mono fuel node s :
  refines (InsertFixUp_loop fuel node s) (InsertFixUp_loop (S fuel) node s).
Proof.
  revert node s. induction fuel as [|fuel IH]; intros node s; [by left|].
  rewrite (InsertFixUp_loop_S (S fuel)), (InsertFixUp_loop_S fuel). mono IH.
Qed.

Lemma CopyOf_mono fuel node s :
  refines (CopyOf fuel node s) (CopyOf (S fuel) node s).
Proof.
  revert node s. induction fuel as [|fuel IH]; intros node s.
  { destruct node; [by left|by right]. }
  rewrite (CopyOf_S (S fuel)), (CopyOf_S fuel). mono IH.
Qed.

Lemma Insert_mono fuel k s :
  refines (Insert fuel k s) (Insert (S fuel) k s).
Proof.
  unfold Insert, Contains, Get, BasicInsert, InsertFixUp.
  mono Get_loop_mono; mono BasicInsert_loop_mono; mono InsertFixUp_loop_mono.
Qed.

Lemma RedBlackTree_copy_mono fuel rbt s :
  refines (RedBlackTree_copy fuel rbt s) (RedBlackTree_copy (S fuel) rbt s).
Proof. unfold RedBlackTree_copy. mono CopyOf_mono. Qed.

Lemma refines_Ok_le {A} (f : nat → outcome A) n m a s :
  (∀ k, refines (f k) (f (S k))) → (n ≤ m)%nat →
  f n = Ok a s → f m = Ok a s.
Proof.
  intros Hmono Hle. induction Hle as [|m Hle IH]; [done|].
  intros H. specialize (IH H). destruct (Hmono m) as [E|E]; congruence.
Qed.

(** ** Trees built through the public interface *)

Lemma tree_inv_frame s t h' :
  tree_inv s t → (∀ x, x ∈ addrs t → h' !! x = mem s !! x) →
  tree_inv (with_mem h' s) t.
Proof.
  intros ((Hrep & Hroot & Hnd) & Hbst & Hrb & Hnum) Hag.
  unfold tree_inv, abs. split_and!; try done. simpl. by eapply rep_ext.
Qed.

Lemma built_inv s : built s → ∃ t, tree_inv s t.
Proof.
  induction 1 as [s0 s Hrun|s0 k s Hrun|src s0 fuel s _ [t Ht] Hmem Hrun
                 |s fuel k s' _ [t Ht] Hrun|s h' _ [t Ht] Hag].
  - destruct (RedBlackTree_default_spec s0) as (s1 & Hrun1 & Hinv & _).
    rewrite Hrun in Hrun1. injection Hrun1 as <-. eauto.
  - destruct (RedBlackTree_single_spec s0 k) as (s1 & Hrun1 & Hinv & _).
    rewrite Hrun in Hrun1. injection Hrun1 as <-. eauto.
  - apply (refines_Ok_le (λ n, RedBlackTree_copy n (this src) s0)
             fuel (fuel `max` height t)) in Hrun;
      [|intros; apply RedBlackTree_copy_mono|lia].
    destruct (RedBlackTree_copy_spec s0 (this src) t (fuel `max` height t))
      as (s1 & t' & Hrun1 & Hinv & _); [|lia|].
    { rewrite Hmem. by destruct src. }
    rewrite Hrun in Hrun1. injection Hrun1 as <-. eauto.
  - apply (refines_Ok_le (λ n, Insert n k s)
             fuel (fuel `max` S (height t))) in Hrun;
      [|intros; apply Insert_mono|lia].
    destruct (Insert_spec s t k (fuel `max` S (height t)) Ht)
      as [Hdup Hnew]; [lia|].
    destruct (decide (k ∈ keys t)) as [Hk|Hk].
    + rewrite Hdup in Hrun by done. done.
    + destruct (Hnew Hk) as (s1 & t' & Hrun1 & Hinv & _).
      rewrite Hrun in Hrun1. injection Hrun1 as <-. eauto.
  - exists t. apply tree_inv_frame; [done|]. intros x Hx. apply Hag.
    destruct Ht as ((Hrep & Hroot & _) & _). unfold node_of.
    by rewrite Hroot, (reach_addrs _ _ _ _ Hrep).
Qed.

Lemma sorted_head_min (l : list Z) x :
  StronglySorted Z.lt l → head l = Some x → ∀ y, y ∈ l → x ≤ y.
Proof.
  destruct l as [|z l]; [done|]. intros Hs [= ->] y.
  apply StronglySorted_cons in Hs as [Hall _].
  rewrite Forall_forall in Hall.
  intros [->|Hy]%elem_of_cons; [lia|]. specialize (Hall _ Hy). lia.
Qed.

Lemma sorted_last_max (l : list Z) x :
  StronglySorted Z.lt l → last l = Some x → ∀ y, y ∈ l → y ≤ x.
Proof.
  intros Hs Hl y Hy.
  apply last_Some in Hl as [l' ->].
  apply elem_of_app in Hy as [Hy|Hy%list_elem_of_singleton]; [|lia].
  apply StronglySorted_app in Hs as (Hlt & _).
  specialize (Hlt y x Hy). rewrite list_elem_of_singleton in Hlt.
  specialize (Hlt eq_refl). lia.
Qed.

(** ** Concrete runs *)

Lemma built_tree_10 : built tree_10.
Proof.
  eapply (built_insert (exec RedBlackTree_default state0) 8 10).
  - by eapply (built_default state0).
  - reflexivity.
Defined.

Lemma built_tree_10_20 : built tree_10_20.
Proof.
  eapply (built_insert tree_10 8 20).
  - exact built_tree_10.
  - reflexivity.
Defined.

Lemma built_tree_10_20_30 : built tree_10_20_30.
Proof.
  eapply (built_insert tree_10_20 8 30).
  - exact built_tree_10_20.
  - reflexivity.
Defined.

(** * The claims *)

(** C1. On a tree built through the public interface, [Insert(key)]
    throws "Duplicate value." when [key] is already stored, and the state
    at the throw is the state of the call: nothing was written.
    Otherwise it returns normally, [numItems] has grown by exactly one,
    and the stored keys are the old ones and [key]. *)
Theorem Insert_duplicate_or_counted s k fuel :
  built s → (N.to_nat (numItems (this s)) < fuel)%nat →
  (stored s k → Insert fuel k s = Throw "Duplicate value." s)
  ∧ (¬ stored s k →
       ∃ s', Insert fuel k s = Ok tt s'
         ∧ numItems (this s') = (numItems (this s) + 1)%N
         ∧ ∀ k', stored s' k' ↔ k' = k ∨ stored s k').
Proof.
  intros [t Ht]%built_inv Hf.
  pose proof (tree_inv_height _ _ Ht) as Hh.
  pose proof Ht as (Habs & _).
  destruct (Insert_spec s t k fuel Ht) as [Hdup Hnew]; [lia|].
  rewrite (stored_keys s t k Habs). split; [done|].
  intros Hk. destruct (Hnew Hk) as (s' & t' & Hrun & Hinv' & Hperm & _).
  exists s'. split_and!; [done| |].
  - destruct Ht as (_ & _ & _ & ->), Hinv' as (_ & _ & _ & ->).
    rewrite Hperm. simpl. lia.
  - intros k'. destruct Hinv' as (Habs' & _).
    rewrite (stored_keys s' t' k' Habs'), (stored_keys s t k' Habs), Hperm.
    apply elem_of_cons.
Qed.

Lemma Insert_duplicate_or_counted_witness :
  built tree_10 ∧ (N.to_nat (numItems (this tree_10)) < 8)%nat
  ∧ (stored tree_10 10 → Insert 8 10 tree_10 = Throw "Duplicate value." tree_10)
  ∧ (¬ stored tree_10 10 →
       ∃ s', Insert 8 10 tree_10 = Ok tt s'
         ∧ numItems (this s') = (numItems (this tree_10) + 1)%N
         ∧ ∀ k', stored s' k' ↔ k' = 10 ∨ stored tree_10 k').
Proof.
  split; [exact built_tree_10|]. split; [vm_compute; lia|].
  apply (Insert_duplicate_or_counted tree_10 10 8).
  - exact built_tree_10.
  - vm_compute. lia.
Defined.

(** C2. In a tree built through the public interface, from any node all
    paths down to an absent child pass the same number of BLACK nodes. *)
Theorem black_height_uniform s a n m :
  built s → node_of s a →
  black_path (mem s) (Some a) n → black_path (mem s) (Some a) m → n = m.
Proof.
  intros [t Ht]%built_inv Ha Hn Hm.
  destruct Ht as ((Hrep & Hroot & _) & _ & (_ & h & Hrb) & _).
  unfold node_of in Ha. rewrite Hroot, (reach_addrs _ _ _ _ Hrep) in Ha.
  apply addrs_split in Ha as (ctx & c & l & k & r & ->).
  apply rep_plug in Hrep as [Hsub _].
  apply rb_plug_sub in Hrb as [h' Hrb].
  transitivity h'; [|symmetry];
    eapply (black_path_rb _ _ (Node a c l k r)); eauto.
Qed.

(** C3. In a tree built through the public interface, a RED node has no
    RED child, on either side. *)
Theorem no_red_red s a n b m :
  built s → node_of s a → mem s !! a = Some n → color n = COLOR_RED →
  left n = Some b ∨ right n = Some b → mem s !! b = Some m →
  color m = COLOR_BLACK.
Proof.
  intros [t Ht]%built_inv Ha Hn Hc Hb Hm.
  destruct Ht as ((Hrep & Hroot & _) & _ & (_ & h & Hrb) & _).
  unfold node_of in Ha. rewrite Hroot, (reach_addrs _ _ _ _ Hrep) in Ha.
  apply addrs_split in Ha as (ctx & c & l & k & r & ->).
  apply rep_plug in Hrep as [Hsub _].
  apply rb_plug_sub in Hrb as [h' Hrb].
  destruct Hsub as ([fl Hcell] & Hl & Hr).
  rewrite Hcell in Hn. injection Hn as <-. simpl in Hc, Hb. subst c.
  destruct Hrb as (Hbl & Hbr & _).
  destruct Hb as [Hb|Hb].
  - destruct l as [|x [] ? ? ?]; simpl in *; try done.
    injection Hb as ->. destruct Hl as ([? Hx] & _).
    rewrite Hx in Hm. by injection Hm as <-.
  - destruct r as [|x [] ? ? ?]; simpl in *; try done.
    injection Hb as ->. destruct Hr as ([? Hx] & _).
    rewrite Hx in Hm. by injection Hm as <-.
Qed.

(** C4. A tree built through the public interface is empty or has a
    BLACK root. *)
Theorem root_is_black s :
  built s →
  root (this s) = None
  ∨ ∃ r n, root (this s) = Some r ∧ mem s !! r = Some n
           ∧ color n = COLOR_BLACK.
Proof.
  intros [t Ht]%built_inv.
  destruct Ht as ((Hrep & Hroot & _) & _ & (Hb & _) & _).
  destruct t as [|r [] tl k tr]; simpl in *; [by left|done|].
  right. destruct Hrep as ([fl Hcell] & _). eauto.
Qed.

(** C5. The infix rendering of a tree built through the public interface
    is the rendering, node after node, of a sequence whose keys are
    strictly ascending and are exactly the stored keys. *)
Theorem infix_ascending s fuel :
  built s → (N.to_nat (numItems (this s)) ≤ fuel)%nat →
  ∃ l : list (Color * Z),
    ToInfixString fuel (root (this s)) s = Ok (render l) s
    ∧ StronglySorted Z.lt (l.*2)
    ∧ ∀ k, k ∈ l.*2 ↔ stored s k.
Proof.
  intros [t Ht]%built_inv Hf.
  pose proof (tree_inv_height _ _ Ht) as Hh.
  destruct Ht as (Habs & Hbst & _).
  pose proof Habs as (Hrep & Hroot & _).
  exists (nodes t). split_and!.
  - rewrite Hroot, <- infix_string_render.
    eapply ToInfixString_spec; [done|lia].
  - by rewrite <- keys_nodes.
  - intros k. by rewrite <- keys_nodes, (stored_keys s t k Habs).
Qed.

(** C6. On a tree built through the public interface, [GetMin] and
    [GetMax] throw "Tree is empty." when there is no root; when there is
    one they return a stored key that is the least, respectively the
    greatest, of the stored keys. *)
Theorem GetMin_GetMax_extreme s fuel :
  built s → (N.to_nat (numItems (this s)) ≤ fuel)%nat →
  (root (this s) = None →
     GetMin fuel s = Throw "Tree is empty." s
     ∧ GetMax fuel s = Throw "Tree is empty." s)
  ∧ (root (this s) ≠ None →
     ∃ lo hi, GetMin fuel s = Ok lo s ∧ GetMax fuel s = Ok hi s
       ∧ stored s lo ∧ stored s hi
       ∧ ∀ k, stored s k → lo ≤ k ≤ hi).
Proof.
  intros [t Ht]%built_inv Hf.
  pose proof (tree_inv_height _ _ Ht) as Hh.
  destruct Ht as (Habs & Hbst & _).
  pose proof Habs as (Hrep & Hroot & _).
  split.
  - intros Hnone. unfold GetMin, GetMax. unfold_ops. by rewrite Hnone.
  - intros Hsome. destruct t as [|a c l k r]; [by rewrite Hroot in Hsome|].
    simpl in Hh.
    destruct (GetMin_loop_spec s None a c l k r fuel Hrep)
      as (p & nd & Hrun & Hp & Hhd); [lia|].
    destruct (GetMax_loop_spec s None a c l k r fuel Hrep)
      as (p' & nd' & Hrun' & Hp' & Hlast); [lia|].
    exists (data nd), (data nd'). split_and!.
    + unfold GetMin. unfold_ops. rewrite Hroot. simpl. rewrite Hrun.
      by hsimp.
    + unfold GetMax. unfold_ops. rewrite Hroot. simpl. rewrite Hrun'.
      by hsimp.
    + apply (stored_keys s _ _ Habs). by eapply head_Some_elem_of.
    + apply (stored_keys s _ _ Habs). by eapply last_Some_elem_of.
    + intros k' Hk'%(stored_keys s _ _ Habs). split.
      * by eapply sorted_head_min.
      * by eapply sorted_last_max.
Qed.

Lemma built_tree_10_to_60 : built tree_10_to_60.
Proof.
  eapply (built_insert (exec (Insert 8 50) (exec (Insert 8 40) tree_10_20_30)) 8 60);
    [|reflexivity].
  eapply (built_insert (exec (Insert 8 40) tree_10_20_30) 8 50);
    [|reflexivity].
  eapply (built_insert tree_10_20_30 8 40);
    [exact built_tree_10_20_30|reflexivity].
Defined.

Lemma black_height_uniform_witness :
  built tree_10_20_30 ∧ node_of tree_10_20_30 1%nat
  ∧ black_path (mem tree_10_20_30) (Some 1%nat) 1
  ∧ black_path (mem tree_10_20_30) (Some 1%nat) 1
  ∧ 1%nat = 1%nat.
Proof.
  assert (mem tree_10_20_30 !! 1%nat = Some node_20) as H20 by reflexivity.
  assert (mem tree_10_20_30 !! 0%nat = Some node_10) as H10 by reflexivity.
  assert (mem tree_10_20_30 !! 2%nat = Some node_30) as H30 by reflexivity.
  assert (node_of tree_10_20_30 1%nat) as Hnode.
  { exact (reach_here _ 1%nat node_20 H20). }
  assert (black_path (mem tree_10_20_30) (Some 1%nat) 1) as Hl.
  { exact (black_path_left _ 1%nat node_20 0 H20
             (black_path_left _ 0%nat node_10 0 H10 (black_path_null _))). }
  assert (black_path (mem tree_10_20_30) (Some 1%nat) 1) as Hr.
  { exact (black_path_right _ 1%nat node_20 0 H20
             (black_path_right _ 2%nat node_30 0 H30 (black_path_null _))). }
  split_and!; [exact built_tree_10_20_30|exact Hnode|exact Hl|exact Hr|].
  exact (black_height_uniform tree_10_20_30 1%nat 1 1
           built_tree_10_20_30 Hnode Hl Hr).
Defined.

Lemma no_red_red_witness :
  built tree_10_to_60 ∧ node_of tree_10_to_60 3%nat
  ∧ mem tree_10_to_60 !! 3%nat = Some node_40
  ∧ color node_40 = COLOR_RED
  ∧ (left node_40 = Some 2%nat ∨ right node_40 = Some 2%nat)
  ∧ mem tree_10_to_60 !! 2%nat = Some node_30'
  ∧ color node_30' = COLOR_BLACK.
Proof.
  assert (mem tree_10_to_60 !! 1%nat = Some node_20') as H20 by reflexivity.
  assert (mem tree_10_to_60 !! 3%nat = Some node_40) as H40 by reflexivity.
  assert (mem tree_10_to_60 !! 2%nat = Some node_30') as H30 by reflexivity.
  assert (node_of tree_10_to_60 3%nat) as Hnode.
  { exact (reach_right _ 1%nat node_20' 3%nat H20 (reach_here _ 3%nat node_40 H40)). }
  split_and!; [exact built_tree_10_to_60|exact Hnode|exact H40|reflexivity
              |left; reflexivity|exact H30|].
  exact (no_red_red tree_10_to_60 3%nat node_40 2%nat node_30'
           built_tree_10_to_60 Hnode H40 eq_refl (or_introl eq_refl) H30).
Defined.

Lemma root_is_black_witness :
  built tree_10_20_30
  ∧ (root (this tree_10_20_30) = None
     ∨ ∃ r n, root (this tree_10_20_30) = Some r
              ∧ mem tree_10_20_30 !! r = Some n ∧ color n = COLOR_BLACK).
Proof.
  split; [exact built_tree_10_20_30|].
  exact (root_is_black tree_10_20_30 built_tree_10_20_30).
Defined.

Lemma infix_ascending_witness :
  built tree_10_20_30
  ∧ (N.to_nat (numItems (this tree_10_20_30)) ≤ 3)%nat
  ∧ ∃ l : list (Color * Z),
      ToInfixString 3 (root (this tree_10_20_30)) tree_10_20_30
        = Ok (render l) tree_10_20_30
      ∧ StronglySorted Z.lt (l.*2)
      ∧ ∀ k, k ∈ l.*2 ↔ stored tree_10_20_30 k.
Proof.
  assert (N.to_nat (numItems (this tree_10_20_30)) ≤ 3)%nat as Hf
    by (vm_compute; lia).
  split_and!; [exact built_tree_10_20_30|exact Hf|].
  exact (infix_ascending tree_10_20_30 3 built_tree_10_20_30 Hf).
Defined.

Lemma GetMin_GetMax_extreme_witness :
  built tree_10_20_30
  ∧ (N.to_nat (numItems (this tree_10_20_30)) ≤ 3)%nat
  ∧ (root (this tree_10_20_30) = None →
       GetMin 3 tree_10_20_30 = Throw "Tree is empty." tree_10_20_30
       ∧ GetMax 3 tree_10_20_30 = Throw "Tree is empty." tree_10_20_30)
  ∧ (root (this tree_10_20_30) ≠ None →
       ∃ lo hi, GetMin 3 tree_10_20_30 = Ok lo tree_10_20_30
         ∧ GetMax 3 tree_10_20_30 = Ok hi tree_10_20_30
         ∧ stored tree_10_20_30 lo ∧ stored tree_10_20_30 hi
         ∧ ∀ k, stored tree_10_20_30 k → lo ≤ k ≤ hi).
Proof.
  assert (N.to_nat (numItems (this tree_10_20_30)) ≤ 3)%nat as Hf
    by (vm_compute; lia).
  split_and!; [exact built_tree_10_20_30|exact Hf|..];
    apply (GetMin_GetMax_extreme tree_10_20_30 3 built_tree_10_20_30 Hf).
Defined.

(** ** Rotations, seen from the caller *)

Lemma nodes_plug_congr ctx t t' :
  nodes t = nodes t' → nodes (plug ctx t) = nodes (plug ctx t').
Proof.
  revert t t'. induction ctx as [|f ctx IH]; intros t t' E; simpl; [done|].
  apply IH. destruct f; simpl; by rewrite E.
Qed.

Lemma height_le_nodes t : (height t ≤ length (nodes t))%nat.
Proof.
  induction t as [|a c l IHl k r IHr]; simpl; [done|].
  rewrite length_app. simpl. lia.
Qed.

Lemma same_infix_nodes s s' T T' :
  abs s T → abs s' T' → nodes T' = nodes T →
  same_infix s s' (length (nodes T)).
Proof.
  intros (Hrep & Hroot & _) (Hrep' & Hroot' & _) E fuel Hf.
  exists (infix_string T). rewrite Hroot, Hroot'. split.
  - eapply ToInfixString_spec; [done|]. pose proof (height_le_nodes T). lia.
  - rewrite (infix_string_render T), <- E, <- infix_string_render.
    eapply ToInfixString_spec; [done|].
    pose proof (height_le_nodes T'). rewrite E in *. lia.
Qed.

(** C7. On a heap that holds a tree, a left rotation at a node with a
    right child (a right rotation at a node with a left child) returns
    normally; it changes no [data], [color] or [IsNullNode] field of any
    cell; every cell other than the pivot, the promoted child, the top of
    the transplanted subtree and the pivot's parent is left as it was;
    the heap holds a tree again, with the same nodes in the same in-order
    sequence, so the infix rendering is the same. *)
Theorem rotation_relinks_only s T n nn :
  abs s T → node_of s n → mem s !! n = Some nn →
  (∀ r, right nn = Some r →
     ∃ s' nr, mem s !! r = Some nr
       ∧ LeftRotate (Some n) s = Ok tt s'
       ∧ same_payload (mem s) (mem s')
       ∧ unchanged_but [Some n; Some r; left nr; parent nn] (mem s) (mem s')
       ∧ (∃ T', abs s' T' ∧ nodes T' = nodes T)
       ∧ same_infix s s' (length (nodes T)))
  ∧ (∀ l, left nn = Some l →
     ∃ s' nl, mem s !! l = Some nl
       ∧ RightRotate (Some n) s = Ok tt s'
       ∧ same_payload (mem s) (mem s')
       ∧ unchanged_but [Some n; Some l; right nl; parent nn] (mem s) (mem s')
       ∧ (∃ T', abs s' T' ∧ nodes T' = nodes T)
       ∧ same_infix s s' (length (nodes T))).
Proof.
  intros Habs Hnode Hn.
  pose proof Habs as (Hrep & Hroot & Hnd).
  unfold node_of in Hnode.
  rewrite Hroot, (reach_addrs _ _ _ _ Hrep) in Hnode.
  apply addrs_split in Hnode as (ctx & c & tl & k & tr & ->).
  apply rep_plug in Hrep as [Hsub _].
  destruct Hsub as ([fl Hcell] & Hl & Hr).
  rewrite Hcell in Hn. injection Hn as <-. simpl. split.
  - intros r Hr'. destruct tr as [|r' cr tb kr td]; [done|].
    simpl in Hr'. injection Hr' as ->.
    destruct Hr as ([flr Hcr] & _).
    destruct (LeftRotate_plug s ctx n c tl k r cr tb kr td Habs)
      as (s' & Hrun & Habs' & _ & Hpay & Hun & _).
    assert (nodes (plug ctx (Node r cr (Node n c tl k tb) kr td))
            = nodes (plug ctx (Node n c tl k (Node r cr tb kr td)))) as E.
    { apply nodes_plug_congr. simpl. by rewrite <- !app_assoc. }
    eexists s', _. split_and!; [exact Hcr|done..| |].
    + eauto.
    + by eapply same_infix_nodes.
  - intros l Hl'. destruct tl as [|l' cl ta kl tb]; [done|].
    simpl in Hl'. injection Hl' as ->.
    destruct Hl as ([fll Hcl] & _).
    destruct (RightRotate_plug s ctx n c l cl ta kl tb k tr Habs)
      as (s' & Hrun & Habs' & _ & Hpay & Hun & _).
    assert (nodes (plug ctx (Node l cl ta kl (Node n c tb k tr)))
            = nodes (plug ctx (Node n c (Node l cl ta kl tb) k tr))) as E.
    { apply nodes_plug_congr. simpl. by rewrite <- !app_assoc. }
    eexists s', _. split_and!; [exact Hcl|done..| |].
    + eauto.
    + by eapply same_infix_nodes.
Qed.

Lemma abs_tree_10_20_30 : abs tree_10_20_30 shape_10_20_30.
Proof.
  split_and!.
  - simpl. split_and!; try done; by eexists.
  - reflexivity.
  - simpl. repeat (constructor; [set_solver|]). constructor.
Defined.

Lemma rotation_relinks_only_witness :
  abs tree_10_20_30 shape_10_20_30 ∧ node_of tree_10_20_30 1%nat
  ∧ mem tree_10_20_30 !! 1%nat = Some node_20
  ∧ (∀ r, right node_20 = Some r →
       ∃ s' nr, mem tree_10_20_30 !! r = Some nr
         ∧ LeftRotate (Some 1%nat) tree_10_20_30 = Ok tt s'
         ∧ same_payload (mem tree_10_20_30) (mem s')
         ∧ unchanged_but [Some 1%nat; Some r; left nr; parent node_20]
             (mem tree_10_20_30) (mem s')
         ∧ (∃ T', abs s' T' ∧ nodes T' = nodes shape_10_20_30)
         ∧ same_infix tree_10_20_30 s' (length (nodes shape_10_20_30)))
  ∧ (∀ l, left node_20 = Some l →
       ∃ s' nl, mem tree_10_20_30 !! l = Some nl
         ∧ RightRotate (Some 1%nat) tree_10_20_30 = Ok tt s'
         ∧ same_payload (mem tree_10_20_30) (mem s')
         ∧ unchanged_but [Some 1%nat; Some l; right nl; parent node_20]
             (mem tree_10_20_30) (mem s')
         ∧ (∃ T', abs s' T' ∧ nodes T' = nodes shape_10_20_30)
         ∧ same_infix tree_10_20_30 s' (length (nodes shape_10_20_30))).
Proof.
  assert (mem tree_10_20_30 !! 1%nat = Some node_20) as H20 by reflexivity.
  assert (node_of tree_10_20_30 1%nat) as Hnode.
  { exact (reach_here _ 1%nat node_20 H20). }
  split; [exact abs_tree_10_20_30|].
  split; [exact Hnode|]. split; [exact H20|].
  exact (rotation_relinks_only tree_10_20_30 shape_10_20_30 1%nat
           node_20 abs_tree_10_20_30 Hnode H20).
Defined.

(** ** Copies *)

Lemma renders_inv s t :
  tree_inv s t →
  renders s (infix_string t) (prefix_string t) (postfix_string t).
Proof.
  intros Hinv fuel Hf. pose proof (tree_inv_height _ _ Hinv) as Hh.
  destruct Hinv as ((Hrep & Hroot & _) & _). rewrite Hroot.
  split_and!;
    [ eapply ToInfixString_spec | eapply ToPrefixString_spec
    | eapply ToPostfixString_spec ]; (done || lia).
Qed.

Lemma abs_parents_linked s t : abs s t → parents_linked s.
Proof.
  intros (Hrep & Hroot & Hnd). split.
  - intros r n Hr Hn. rewrite Hroot in Hr.
    destruct t as [|x c l k rt]; [done|]. injection Hr as ->.
    destruct Hrep as ([fl Hx] & _). rewrite Hx in Hn. by injection Hn as <-.
  - intros a n b Ha Hn Hb. unfold node_of in Ha.
    rewrite Hroot, (reach_addrs _ _ _ _ Hrep) in Ha.
    apply addrs_split in Ha as (ctx & c & l & k & r & ->).
    apply rep_plug in Hrep as [Hsub _].
    destruct Hsub as ([fl Hcell] & Hl & Hr).
    rewrite Hcell in Hn. injection Hn as <-. simpl in Hb.
    destruct Hb as [Hb|Hb].
    + destruct l as [|x ? ? ? ?]; [done|]. injection Hb as ->.
      destruct Hl as ([? Hx] & _). eauto.
    + destruct r as [|x ? ? ? ?]; [done|]. injection Hb as ->.
      destruct Hr as ([? Hx] & _). eauto.
Qed.

(** C9. The copy constructor, run on the heap of a tree built through
    the public interface, returns normally.  The copy has the [numItems]
    of the source and the same three renderings; node for node it has the
    same keys and colours, on cells that were all free before; its parent
    back-references mirror its child links; no cell of the source is
    written.  A later [Insert] into the copy that returns leaves the
    renderings (and, the count living in the object, the count) of the
    source as they were, and a later [Insert] into the source that
    returns leaves those of the copy as they were. *)
Theorem copy_independent src s0 fuel :
  built src → mem s0 = mem src →
  (N.to_nat (numItems (this src)) ≤ fuel)%nat →
  ∃ cp i p o,
    RedBlackTree_copy fuel (this src) s0 = Ok tt cp
    ∧ numItems (this cp) = numItems (this src)
    ∧ renders src i p o ∧ renders cp i p o
    ∧ (∃ t t', abs src t ∧ abs cp t' ∧ erase t' = erase t)
    ∧ parents_linked cp
    ∧ (∀ a, node_of cp a → mem src !! a = None)
    ∧ (∀ a, is_Some (mem src !! a) → mem cp !! a = mem src !! a)
    ∧ (∀ k f cp',
         Insert f k cp = Ok tt cp' →
         renders (with_mem (mem cp') src) i p o
         ∧ numItems (this (with_mem (mem cp') src)) = numItems (this src))
    ∧ (∀ k f src',
         Insert f k (with_mem (mem cp) src) = Ok tt src' →
         renders (with_mem (mem src') cp) i p o
         ∧ numItems (this (with_mem (mem src') cp)) = numItems (this cp)).
Proof.
  intros [t Ht]%built_inv Hmem Hf.
  pose proof (tree_inv_height _ _ Ht) as Hh.
  destruct (RedBlackTree_copy_spec s0 (this src) t fuel)
    as (cp & t' & Hrun & Ht' & Her & Hnum & Hfr & Hpres); [|lia|].
  { rewrite Hmem. by destruct src. }
  rewrite Hmem in Hfr, Hpres.
  pose proof Ht as (Habs & _). pose proof Ht' as (Habs' & _).
  pose proof Habs as (Hrep & Hroot & _).
  pose proof Habs' as (Hrep' & Hroot' & _).
  assert (∀ x, x ∈ addrs t → x ∉ addrs t') as Hdisj.
  { intros x Hx Hx'. apply Hfr in Hx'.
    destruct (rep_in_dom _ _ _ _ Hrep Hx) as [? E]. congruence. }
  exists cp, (infix_string t), (prefix_string t), (postfix_string t).
  split_and!; try done.
  - by apply renders_inv.
  - rewrite <- infix_erase, <- prefix_erase, <- postfix_erase, <- Her,
      infix_erase, prefix_erase, postfix_erase.
    by apply renders_inv.
  - eauto.
  - by eapply abs_parents_linked.
  - intros a Ha. apply Hfr. unfold node_of in Ha.
    by rewrite Hroot', (reach_addrs _ _ _ _ Hrep') in Ha.
  - intros k f cp' Hins.
    apply (refines_Ok_le (λ n, Insert n k cp) f (f `max` S (height t')))
      in Hins; [|intros; apply Insert_mono|lia].
    destruct (Insert_spec cp t' k (f `max` S (height t')) Ht')
      as [Hdup Hnew]; [lia|].
    destruct (decide (k ∈ keys t')) as [Hk|Hk].
    { rewrite Hdup in Hins by done. done. }
    destruct (Hnew Hk) as (cp2 & t2 & Hrun2 & _ & _ & _ & Hothers).
    rewrite Hins in Hrun2. injection Hrun2 as <-.
    split; [|done]. apply renders_inv, tree_inv_frame; [done|].
    intros x Hx. rewrite Hothers; [|by apply Hdisj|].
    + apply Hpres. by eapply rep_in_dom.
    + rewrite Hpres; by eapply rep_in_dom.
  - intros k f src' Hins.
    assert (tree_inv (with_mem (mem cp) src) t) as Ht2.
    { apply tree_inv_frame; [done|]. intros x Hx.
      apply Hpres. by eapply rep_in_dom. }
    apply (refines_Ok_le (λ n, Insert n k (with_mem (mem cp) src))
             f (f `max` S (height t))) in Hins;
      [|intros; apply Insert_mono|lia].
    destruct (Insert_spec _ t k (f `max` S (height t)) Ht2)
      as [Hdup Hnew]; [lia|].
    destruct (decide (k ∈ keys t)) as [Hk|Hk].
    { rewrite Hdup in Hins by done. done. }
    destruct (Hnew Hk) as (src2 & t2 & Hrun2 & _ & _ & _ & Hothers).
    rewrite Hins in Hrun2. injection Hrun2 as <-.
    split; [|done].
    rewrite <- infix_erase, <- prefix_erase, <- postfix_erase, <- Her,
      infix_erase, prefix_erase, postfix_erase.
    apply renders_inv, tree_inv_frame; [done|].
    intros x Hx. simpl in Hothers. rewrite Hothers; [done| |].
    + intros Hxt. by eapply Hdisj.
    + by eapply rep_in_dom.
Qed.

Lemma copy_independent_witness :
  built tree_10_20_30 ∧ mem tree_10_20_30 = mem tree_10_20_30
  ∧ (N.to_nat (numItems (this tree_10_20_30)) ≤ 3)%nat
  ∧ ∃ cp i p o,
      RedBlackTree_copy 3 (this tree_10_20_30) tree_10_20_30 = Ok tt cp
      ∧ numItems (this cp) = numItems (this tree_10_20_30)
      ∧ renders tree_10_20_30 i p o ∧ renders cp i p o
      ∧ (∃ t t', abs tree_10_20_30 t ∧ abs cp t' ∧ erase t' = erase t)
      ∧ parents_linked cp
      ∧ (∀ a, node_of cp a → mem tree_10_20_30 !! a = None)
      ∧ (∀ a, is_Some (mem tree_10_20_30 !! a) →
           mem cp !! a = mem tree_10_20_30 !! a)
      ∧ (∀ k f cp',
           Insert f k cp = Ok tt cp' →
           renders (with_mem (mem cp') tree_10_20_30) i p o
           ∧ numItems (this (with_mem (mem cp') tree_10_20_30))
             = numItems (this tree_10_20_30))
      ∧ (∀ k f src',
           Insert f k (with_mem (mem cp) tree_10_20_30) = Ok tt src' →
           renders (with_mem (mem src') cp) i p o
           ∧ numItems (this (with_mem (mem src') cp)) = numItems (this cp)).
Proof.
  assert (N.to_nat (numItems (this tree_10_20_30)) ≤ 3)%nat as Hf
    by (vm_compute; lia).
  split_and!; [exact built_tree_10_20_30|reflexivity|exact Hf|].
  exact (copy_independent tree_10_20_30 tree_10_20_30 3
           built_tree_10_20_30 eq_refl Hf).
Defined.

(** C10. Copy-constructing from an empty tree, on any heap and with any
    fuel: [CopyOf] of the null pointer is the null pointer, no cell is
    allocated or written, the copy has no root and count 0, and its
    three renderings are the empty string. *)
Theorem copy_of_empty s0 fuel f :
  CopyOf fuel None s0 = Ok None s0
  ∧ ∃ cp, RedBlackTree_copy fuel (mkTree None 0) s0 = Ok tt cp
      ∧ mem cp = mem s0
      ∧ root (this cp) = None
      ∧ numItems (this cp) = 0%N
      ∧ ToInfixString f (root (this cp)) cp = Ok "" cp
      ∧ ToPrefixString f (root (this cp)) cp = Ok "" cp
      ∧ ToPostfixString f (root (this cp)) cp = Ok "" cp.
Proof.
  split; [by destruct fuel|].
  exists (mkState (mem s0) (mkTree None 0)).
  split_and!; try done; try (by destruct f).
  unfold RedBlackTree_copy. unfold_ops. by destruct fuel.
Qed.

(** ** The scenario of 10, 20, 30 *)

(** C8, as stated, fails: the tree of 10, 20, 30 has 20 as its BLACK root
    and 10 and 30 as RED leaves, least key 10 and greatest key 30, but
    its infix rendering is not [" B10  R20  B30 "]. *)
Lemma rendering_B10_R20_B30_refuted :
  ¬ (ToInfixString 8 (root (this tree_10_20_30)) tree_10_20_30
       = Ok " B10  R20  B30 " tree_10_20_30
     ∧ (∃ r l rt, root (this tree_10_20_30) = Some r
          ∧ mem tree_10_20_30 !! r
            = Some (mkNode 20 COLOR_BLACK (Some l) (Some rt) None false)
          ∧ mem tree_10_20_30 !! l
            = Some (mkNode 10 COLOR_RED None None (Some r) false)
          ∧ mem tree_10_20_30 !! rt
            = Some (mkNode 30 COLOR_RED None None (Some r) false))
     ∧ GetMin 8 tree_10_20_30 = Ok 10 tree_10_20_30
     ∧ GetMax 8 tree_10_20_30 = Ok 30 tree_10_20_30).
Proof. intros [H _]. vm_compute in H. discriminate. Qed.

(** C8, amended. Inserting 10, 20, 30 in that order into an empty tree
    gives the infix rendering [" R10  B20  R30 "]: 20 is the BLACK root,
    10 and 30 are its RED children and have no children themselves;
    [GetMin] returns 10 and [GetMax] returns 30. *)
Theorem scenario_10_20_30 :
  ToInfixString 8 (root (this tree_10_20_30)) tree_10_20_30
    = Ok " R10  B20  R30 " tree_10_20_30
  ∧ (∃ r l rt, root (this tree_10_20_30) = Some r
       ∧ mem tree_10_20_30 !! r
         = Some (mkNode 20 COLOR_BLACK (Some l) (Some rt) None false)
       ∧ mem tree_10_20_30 !! l
         = Some (mkNode 10 COLOR_RED None None (Some r) false)
       ∧ mem tree_10_20_30 !! rt
         = Some (mkNode 30 COLOR_RED None None (Some r) false))
  ∧ numItems (this tree_10_20_30) = 3%N
  ∧ GetMin 8 tree_10_20_30 = Ok 10 tree_10_20_30
  ∧ GetMax 8 tree_10_20_30 = Ok 30 tree_10_20_30.
Proof.
  split_and!; try reflexivity.
  exists 1%nat, 0%nat, 2%nat. split_and!; reflexivity.
Qed.
